(** * YathzoBalo: the scoring logic of [hooks/useGame.ts]

    A shallow embedding of [getPossibleScores] and of its local fallback
    [calculateLocalScore], with the JavaScript operations they use written
    out: objects used as maps, [Array.prototype.sort] with and without a
    comparator, [Set], [join], [includes], strict equality with [null] and
    [undefined].

    Numbers are modelled as integers ([Z]): dice are integers in the source's
    callers, and every operation used here (addition, multiplication by a face
    value, comparison) is exact on integers in JavaScript's safe range. The
    scoring functions add and print in the integers; [Js.add] gives the
    addition of JavaScript numbers itself, and [safeDice] the dice on which
    the two agree.
    [console.log] calls are not modelled: they return nothing the code reads.

    The operations of the hook ([newGame], [rollDice], [toggleDie],
    [scoreCategory], [fetchPossibleScores] and the effect that follows the
    dice) are functions of the state and of the reply of the server, which
    is a parameter: [gameApi] itself is not part of this file. *)

From Stdlib Require Import ZArith List Bool Ascii String DecimalString DecimalPos DecimalZ Lia.
From stdpp Require Import base decidable option list strings gmap relations sorting.

Local Open Scope string_scope.
Local Open Scope list_scope.
Local Open Scope Z_scope.

(** ** JavaScript primitives used by the hook *)

Module Js.

(** A value read from a property of an object: a number, [null], or
    [undefined] when the object has no such property. *)
Inductive Value : Type :=
| Undefined
| Null
| Number (n : Z).

(** [v === null] *)
Definition is_null (v : Value) : bool :=
  match v with
  | Null => true
  | _ => false
  end.

(** [String(n)] for an integer [n] below 10^21 in absolute value, where
    JavaScript prints every digit (it switches to exponent form above). *)
Definition toString (n : Z) : string :=
  NilZero.string_of_int (Z.to_int n).

(** [ToPropertyKey] of the result of a lookup in a string-valued object:
    [obj[undefined]] reads the property named ["undefined"]. *)
Definition toPropertyKey (k : option string) : string :=
  match k with
  | Some s => s
  | None => "undefined"
  end.

(** Insertion of [x] into an ascending list of elements that came after it:
    before the first element that is not smaller, so that equal elements
    keep their order. *)
Fixpoint insert_by {A : Type} (le : A → A → bool) (x : A) (l : list A) : list A :=
  match l with
  | [] => [x]
  | y :: l' => if le x y then x :: y :: l' else y :: insert_by le x l'
  end.

(** [Array.prototype.sort]: a stable sort by the given order. *)
Definition sort_by {A : Type} (le : A → A → bool) (l : list A) : list A :=
  foldr (insert_by le) [] l.

(** [arr.sort((a, b) => a - b)]: ascending numeric order. *)
Definition sort_numeric (l : list Z) : list Z := sort_by Z.leb l.

(** [arr.sort()] with no comparator: elements are compared by their string
    conversions, in code-unit order. *)
Definition sort_default (l : list Z) : list Z :=
  sort_by (λ a b, String.leb (toString a) (toString b)) l.

(** [[...new Set(arr)]]: the distinct elements, in order of first
    occurrence. *)
Fixpoint set_add (x : Z) (seen : list Z) : list Z :=
  match seen with
  | [] => [x]
  | y :: seen' => if y =? x then seen else y :: set_add x seen'
  end.

Definition set_of (l : list Z) : list Z :=
  fold_left (λ seen x, set_add x seen) l [].

(** [arr.join('')] *)
Definition join (l : list Z) : string :=
  String.concat "" (toString <$> l).

(** [s.includes(pat)]: [pat] occurs in [s] as a contiguous substring. *)
Fixpoint includes (s pat : string) : bool :=
  String.prefix pat s ||
  match s with
  | EmptyString => false
  | String _ s' => includes s' pat
  end.

(** An object whose properties are created by [acc[die] = ...] with
    numeric keys: the entries in order of creation. *)
Definition NumObject : Type := list (Z * Z).

(** [acc[die]] *)
Fixpoint get (acc : NumObject) (key : Z) : option Z :=
  match acc with
  | [] => None
  | (k, v) :: acc' => if k =? key then Some v else get acc' key
  end.

(** [acc[die] = v]: overwrite in place, or create the property last. *)
Fixpoint set (acc : NumObject) (key v : Z) : NumObject :=
  match acc with
  | [] => [(key, v)]
  | (k, w) :: acc' => if k =? key then (k, v) :: acc' else (k, w) :: set acc' key v
  end.

(** [x || 0] for a property that holds a number or is missing. *)
Definition or_zero (x : option Z) : Z :=
  match x with
  | Some v => if v =? 0 then 0 else v
  | None => 0
  end.

(** [a + b] on numbers that hold integers: the exact sum when it has at most
    53 significant bits, and otherwise the nearest number with 53, the even
    one of two that are equally near (sums beyond the largest finite number
    are not modelled). *)
Definition add (a b : Z) : Z :=
  let n := a + b in
  let m := Z.abs n in
  if m <? 2 ^ 53 then n
  else
    let e := Z.log2 m - 52 in
    let q := m / 2 ^ e in
    let r := m mod 2 ^ e in
    let half := 2 ^ (e - 1) in
    let q := if r <? half then q
             else if half <? r then q + 1
             else if Z.even q then q else q + 1 in
    Z.sgn n * (q * 2 ^ e).

(** A property key that is an array index is enumerated before the
    others, in ascending order. *)
Definition is_array_index (k : Z) : bool :=
  (0 <=? k) && (k <? 2 ^ 32 - 1).

(** [Object.values(acc)]: array-index keys ascending, then the remaining
    keys in order of creation. *)
Definition values (acc : NumObject) : list Z :=
  let idx := List.filter (λ kv, is_array_index kv.1) acc in
  let rest := List.filter (λ kv, negb (is_array_index kv.1)) acc in
  (sort_by (λ a b, a.1 <=? b.1) idx ++ rest).*2.

End Js.

(** ** The state of the hook *)

(** [gameState.scoreSheet], with the fields of the object literal that
    initialises it: a category holds [null] ([None]) until it is played. *)
Record ScoreSheet : Type := {
  ones : option Z; twos : option Z; threes : option Z;
  fours : option Z; fives : option Z; sixes : option Z;
  upperBonus : Z; upperTotal : Z;
  threeOfkind : option Z; fourOfkind : option Z; fullHouse : option Z;
  smallStraight : option Z; largeStraight : option Z;
  yahtzee : option Z; chance : option Z;
  lowerTotal : Z
}.

Record GameState : Type := {
  dice : list Z;
  selectedDice : list Z;
  rollsLeft : Z;
  currentRound : Z;
  scoreSheet : ScoreSheet;
  gameComplete : bool;
  totalScore : Z
}.

(** The [useState] cells of [useGame]. [possibleScores] is the object last
    fetched from the server ([null] before any fetch and after each reset):
    a property is a number, or is missing. *)
Record HookState : Type := {
  gameState : GameState;
  currentGameId : option Z;
  possibleScores : option (gmap string Z);
  loading : bool;
  error : option string
}.

(** One element of the array returned by [getPossibleScores]. *)
Record ScoreOption : Type := {
  category : string;
  name : string;
  score : Z;
  isAvailable : bool
}.

Definition nullable (o : option Z) : Js.Value :=
  match o with
  | Some n => Js.Number n
  | None => Js.Null
  end.

(** [sheet[key]] for a property name computed at run time. *)
Definition scoreSheet_get (sheet : ScoreSheet) (key : string) : Js.Value :=
  if String.eqb key "ones" then nullable (ones sheet)
  else if String.eqb key "twos" then nullable (twos sheet)
  else if String.eqb key "threes" then nullable (threes sheet)
  else if String.eqb key "fours" then nullable (fours sheet)
  else if String.eqb key "fives" then nullable (fives sheet)
  else if String.eqb key "sixes" then nullable (sixes sheet)
  else if String.eqb key "upperBonus" then Js.Number (upperBonus sheet)
  else if String.eqb key "upperTotal" then Js.Number (upperTotal sheet)
  else if String.eqb key "threeOfkind" then nullable (threeOfkind sheet)
  else if String.eqb key "fourOfkind" then nullable (fourOfkind sheet)
  else if String.eqb key "fullHouse" then nullable (fullHouse sheet)
  else if String.eqb key "smallStraight" then nullable (smallStraight sheet)
  else if String.eqb key "largeStraight" then nullable (largeStraight sheet)
  else if String.eqb key "yahtzee" then nullable (yahtzee sheet)
  else if String.eqb key "chance" then nullable (chance sheet)
  else if String.eqb key "lowerTotal" then Js.Number (lowerTotal sheet)
  else Js.Undefined.

(** The score sheet and the state [useGame] starts from. *)
Definition emptySheet : ScoreSheet := {|
  ones := None; twos := None; threes := None;
  fours := None; fives := None; sixes := None;
  upperBonus := 0; upperTotal := 0;
  threeOfkind := None; fourOfkind := None; fullHouse := None;
  smallStraight := None; largeStraight := None;
  yahtzee := None; chance := None;
  lowerTotal := 0
|}.

Definition initialGameState : GameState := {|
  dice := [1; 1; 1; 1; 1];
  selectedDice := [];
  rollsLeft := 3;
  currentRound := 1;
  scoreSheet := emptySheet;
  gameComplete := false;
  totalScore := 0
|}.

Definition initialState : HookState := {|
  gameState := initialGameState;
  currentGameId := None;
  possibleScores := None;
  loading := false;
  error := None
|}.

(** ** [getPossibleScores] *)

(** The [categories] array: identifier and display name. *)
Definition categories : list (string * string) :=
  [ ("ones", "Ones");
    ("twos", "Twos");
    ("threes", "Threes");
    ("fours", "Fours");
    ("fives", "Fives");
    ("sixes", "Sixes");
    ("threeOfkind", "Three of a Kind");
    ("fouroOkind", "Four of a Kind");
    ("fullHouse", "Full House");
    ("smallStraight", "Small Straight");
    ("largeStraight", "Large Straight");
    ("yahtzee", "YAHTZEE!");
    ("chance", "Chance") ].

(** The [scoreMap] object: from a category identifier to the property of
    [possibleScores] that holds its score. *)
Definition scoreMap : gmap string string :=
  list_to_map
    [ ("ones", "ones");
      ("twos", "twos");
      ("threes", "threes");
      ("fours", "fours");
      ("fives", "fives");
      ("sixes", "sixes");
      ("threeOfkind", "threeOfkind");
      ("fourOfkind", "fourOfkind");
      ("fullHouse", "fullHouse");
      ("smallStraight", "smallStraight");
      ("largeStraight", "largeStraight");
      ("yahtzee", "yahtzee");
      ("chance", "chance") ].

(** The object built by the first [reduce]: how often each die occurs. *)
Definition countDice (dice : list Z) : Js.NumObject :=
  fold_left
    (λ acc die, Js.set acc die (Js.or_zero (Js.get acc die) + 1))
    dice [].

(** [dice.filter(d => d === n).length] *)
Definition countFace (n : Z) (dice : list Z) : Z :=
  Z.of_nat (length (List.filter (λ d, d =? n) dice)).

(** The [switch] of [calculateLocalScore]: the [case] labels are tried in
    order, and a category that matches none falls to [default]. The sum is
    taken in the integers: it is the sum the source computes as long as the
    running sums are safe integers, as they are on dice that show one to
    six. *)
Definition calculateLocalScore (dice : list Z) (category : string) : Z :=
  let counts := countDice dice in
  let sorted := Js.sort_numeric dice in
  let sum := fold_left Z.add dice 0 in
  if String.eqb category "ones" then countFace 1 dice * 1
  else if String.eqb category "twos" then countFace 2 dice * 2
  else if String.eqb category "threes" then countFace 3 dice * 3
  else if String.eqb category "fours" then countFace 4 dice * 4
  else if String.eqb category "fives" then countFace 5 dice * 5
  else if String.eqb category "sixes" then countFace 6 dice * 6
  else if String.eqb category "threeofkind" then
    if existsb (λ c, c >=? 3) (Js.values counts) then sum else 0
  else if String.eqb category "fourofkind" then
    if existsb (λ c, c >=? 4) (Js.values counts) then sum else 0
  else if String.eqb category "fullhouse" then
    let values := Js.sort_default (Js.values counts) in
    if bool_decide (length values = 2%nat)
       && bool_decide (values !! 0%nat = Some 2)
       && bool_decide (values !! 1%nat = Some 3)
    then 25 else 0
  else if String.eqb category "smallstraight" then
    let unique := Js.set_of sorted in
    let straights := ["1234"; "2345"; "3456"] in
    let diceString := Js.join unique in
    if existsb (λ straight, Js.includes diceString straight) straights
    then 30 else 0
  else if String.eqb category "largestraight" then
    let unique := Js.set_of sorted in
    if bool_decide (length unique = 5%nat)
       && (String.eqb (Js.join unique) "12345"
           || String.eqb (Js.join unique) "23456")
    then 40 else 0
  else if String.eqb category "yahtzee" then
    if existsb (λ c, c =? 5) (Js.values counts) then 50 else 0
  else if String.eqb category "chance" then sum
  else 0.

(** The score of one category: the fetched score when [possibleScores] is
    not [null] and has the property, the local calculation otherwise. *)
Definition scoreFor (st : HookState) (category : string) : Z :=
  let local := calculateLocalScore (dice (gameState st)) category in
  match possibleScores st with
  | Some fetched =>
      match fetched !! Js.toPropertyKey (scoreMap !! category) with
      | Some remote => remote
      | None => local
      end
  | None => local
  end.

(** The callback of [categories.map]. *)
Definition scoreOption (st : HookState) (entry : string * string) : ScoreOption :=
  let '(category, name) := entry in
  {| category := category;
     name := name;
     score := scoreFor st category;
     isAvailable := Js.is_null (scoreSheet_get (scoreSheet (gameState st)) category) |}.

Definition getPossibleScores (st : HookState) : list ScoreOption :=
  scoreOption st <$> categories.



(** ** Vocabulary of the statements *)

(** A hand: five dice, each showing one to six. *)
Definition validHand (hand : list Z) : Prop :=
  length hand = 5%nat ∧ Forall (λ d, 1 ≤ d ≤ 6) hand.

(** How often the face [v] occurs in a hand. *)
Definition occurrences (v : Z) (hand : list Z) : Z :=
  Z.of_nat (count_occ Z.eq_dec hand v).

(** The sum of the dice. *)
Definition sumDice (hand : list Z) : Z := foldr Z.add 0 hand.

(** [Number.MAX_SAFE_INTEGER] *)
Definition maxSafeInteger : Z := 2 ^ 53 - 1.

(** [dice.reduce((a, b) => a + b, 0)] with the addition of JavaScript
    numbers. *)
Definition numberSum (dice : list Z) : Z := fold_left Js.add dice 0.

(** Dice on which the arithmetic of the source is exact: their absolute
    values add up to a safe integer, so that every die and every sum of dice
    the code can form, in any order, is an integer that a JavaScript number
    holds exactly and prints with all its digits. The model of
    [calculateLocalScore] speaks for the code on such dice. *)
Definition safeDice (dice : list Z) : Prop :=
  foldr (λ d acc, Z.abs d + acc) 0 dice ≤ maxSafeInteger.

(** The score fetched from the server for a category, if there is one. *)
Definition fetchedScore (st : HookState) (category : string) : option Z :=
  fetched ← possibleScores st;
  fetched !! Js.toPropertyKey (scoreMap !! category).

(** The entry of the output that carries a given identifier. *)
Definition entryFor (c : string) (out : list ScoreOption) : option ScoreOption :=
  List.find (λ e, String.eqb (category e) c) out.

(** The identifiers of the score categories: the keys of [scoreMap], which
    are also the nullable fields of the score sheet. *)
Definition scoreCategories : gset string := dom scoreMap.

(** The labels of the [switch] in [calculateLocalScore]. *)
Definition caseLabels : list string :=
  [ "ones"; "twos"; "threes"; "fours"; "fives"; "sixes";
    "threeofkind"; "fourofkind"; "fullhouse";
    "smallstraight"; "largestraight"; "yahtzee"; "chance" ].

(** The state with other dice, and the state with fetched scores. *)
Definition withDice (d : list Z) (st : HookState) : HookState :=
  {| gameState :=
       {| dice := d;
          selectedDice := selectedDice (gameState st);
          rollsLeft := rollsLeft (gameState st);
          currentRound := currentRound (gameState st);
          scoreSheet := scoreSheet (gameState st);
          gameComplete := gameComplete (gameState st);
          totalScore := totalScore (gameState st) |};
     currentGameId := currentGameId st;
     possibleScores := possibleScores st;
     loading := loading st;
     error := error st |}.


(** The upper section: identifier and face value. *)
Definition upperSection : list (string * Z) :=
  [ ("ones", 1); ("twos", 2); ("threes", 3);
    ("fours", 4); ("fives", 5); ("sixes", 6) ].

(** The faces of a die, and all the hands of [n] dice. *)
Definition faces : list Z := [1; 2; 3; 4; 5; 6].

Fixpoint hands (n : nat) : list (list Z) :=
  match n with
  | O => [[]]
  | S n' => d ← faces; (d ::.) <$> hands n'
  end.

(** Some face occurs at least [k] times. *)
Definition ofAKind (k : Z) (hand : list Z) : Prop :=
  ∃ v, v ∈ hand ∧ k ≤ occurrences v hand.

(** One face occurs exactly twice and another exactly three times. *)
Definition pairAndTriple (hand : list Z) : Prop :=
  Exists (λ a, Exists (λ b,
    a ≠ b ∧ occurrences a hand = 2 ∧ occurrences b hand = 3) faces) faces.

(** The hand shows every face of a run. *)
Definition showsRun (run hand : list Z) : Prop := Forall (λ v, v ∈ hand) run.

Definition smallRun (hand : list Z) : Prop :=
  showsRun [1; 2; 3; 4] hand ∨ showsRun [2; 3; 4; 5] hand
  ∨ showsRun [3; 4; 5; 6] hand.

Definition largeRun (hand : list Z) : Prop :=
  showsRun [1; 2; 3; 4; 5] hand ∨ showsRun [2; 3; 4; 5; 6] hand.

(** The three remaining rules, decided on one hand. *)
Definition lowerRulesAgree (hand : list Z) : bool :=
  bool_decide
    (calculateLocalScore hand "fullhouse"
       = if bool_decide (pairAndTriple hand) then 25 else 0)
  && bool_decide
    (calculateLocalScore hand "smallstraight"
       = if bool_decide (smallRun hand) then 30 else 0)
  && bool_decide
    (calculateLocalScore hand "largestraight"
       = if bool_decide (largeRun hand) then 40 else 0).

(** How a call ends: by returning a value or by throwing. *)
Inductive Outcome (A : Type) : Type :=
| Returns (v : A)
| Throws (condition : string).
Arguments Returns {A} v.
Arguments Throws {A} condition.

(** Neither function has a [throw] statement, [reduce] is always given its
    initial value, [possibleScores] is only indexed after the test that it is
    not [null], and [filter], [sort], [Object.values], [Set], [join],
    [includes], [some] and [map] do not throw on arrays of numbers or
    strings: every call returns. *)
Definition call_calculateLocalScore (dice : list Z) (category : string) : Outcome Z :=
  Returns (calculateLocalScore dice category).

Definition call_getPossibleScores (st : HookState) : Outcome (list ScoreOption) :=
  Returns (getPossibleScores st).

(** ** The operations of the hook

    Each operation is a function of the state it is called in and of the way
    the one request it may send is settled by the server; it returns the state
    once its updates are applied, and the requests it sent. Operations run
    one after the other: no call starts while another awaits its reply. *)

(** What [gameApi] sends back for a game: the fields the hook reads. *)
Module Backend.

Record GameState : Type := {
  gameId : Z;
  dice : list Z;
  rollsLeft : Z;
  currentRound : Z;
  scoreSheet : ScoreSheet;
  gameComplete : bool;
  totalScore : Z
}.

End Backend.

(** A value caught by [catch]: an [Error] with its message, or anything
    else. *)
Inductive Thrown : Type :=
| ErrorObject (message : string)
| OtherValue.

(** How the promise of a request is settled. A fulfilled value is an
    object, hence truthy. *)
Inductive Settled (A : Type) : Type :=
| Fulfilled (value : A)
| Rejected (reason : Thrown).
Arguments Fulfilled {A} value.
Arguments Rejected {A} reason.

(** The calls to [gameApi]. The category of [selectScore] is the result of a
    lookup in [categoryMap]: [None] stands for [undefined]. *)
Inductive Request : Type :=
| CreateNewGame (playerName : string)
| RollDice (gameId : Z) (selected : list Z)
| SelectScore (gameId : Z) (backendCategory : option string)
| GetPossibleScores (gameId : Z).

(** The setters of the [useState] cells. *)
Definition setGameState (g : GameState) (st : HookState) : HookState :=
  {| gameState := g;
     currentGameId := currentGameId st;
     possibleScores := possibleScores st;
     loading := loading st;
     error := error st |}.

Definition setCurrentGameId (id : option Z) (st : HookState) : HookState :=
  {| gameState := gameState st;
     currentGameId := id;
     possibleScores := possibleScores st;
     loading := loading st;
     error := error st |}.

Definition setPossibleScores (scores : option (gmap string Z)) (st : HookState) : HookState :=
  {| gameState := gameState st;
     currentGameId := currentGameId st;
     possibleScores := scores;
     loading := loading st;
     error := error st |}.

Definition setLoading (b : bool) (st : HookState) : HookState :=
  {| gameState := gameState st;
     currentGameId := currentGameId st;
     possibleScores := possibleScores st;
     loading := b;
     error := error st |}.

Definition setError (e : option string) (st : HookState) : HookState :=
  {| gameState := gameState st;
     currentGameId := currentGameId st;
     possibleScores := possibleScores st;
     loading := loading st;
     error := e |}.

(** [{ ...g, selectedDice: sel }] *)
Definition withSelectedDice (sel : list Z) (g : GameState) : GameState :=
  {| dice := dice g;
     selectedDice := sel;
     rollsLeft := rollsLeft g;
     currentRound := currentRound g;
     scoreSheet := scoreSheet g;
     gameComplete := gameComplete g;
     totalScore := totalScore g |}.

Definition mapBackendToFrontend (backendState : Backend.GameState) : GameState :=
  {| dice := Backend.dice backendState;
     selectedDice := [];
     rollsLeft := Backend.rollsLeft backendState;
     currentRound := Backend.currentRound backendState;
     scoreSheet := Backend.scoreSheet backendState;
     gameComplete := Backend.gameComplete backendState;
     totalScore := Backend.totalScore backendState |}.

(** [err instanceof Error ? err.message : 'An error occurred'] *)
Definition errorMessage (err : Thrown) : string :=
  match err with
  | ErrorObject message => message
  | OtherValue => "An error occurred"
  end.

(** [handleApiCall]: the state after [try], [catch] and [finally], and the
    value returned ([None] for [null]). *)
Definition handleApiCall {A : Type} (apiCall : Settled A) (st : HookState)
  : HookState * option A :=
  let st := setError None (setLoading true st) in
  match apiCall with
  | Fulfilled result => (setLoading false st, Some result)
  | Rejected err =>
      (setLoading false (setError (Some (errorMessage err)) st), None)
  end.

(** [newGame] has no guard: it always sends its request. *)
Definition newGame (playerName : string) (reply : Settled Backend.GameState)
    (st : HookState) : HookState * list Request :=
  let '(st, result) := handleApiCall reply st in
  (match result with
   | Some result =>
       setPossibleScores None
         (setGameState (mapBackendToFrontend result)
            (setCurrentGameId (Some (Backend.gameId result)) st))
   | None => st
   end,
   [CreateNewGame playerName]).

(** [!currentGameId] is true for [null] and for the number 0. *)
Definition rollDice (reply : Settled Backend.GameState) (st : HookState)
  : HookState * list Request :=
  match currentGameId st with
  | Some id =>
      if (id =? 0) || (rollsLeft (gameState st) <=? 0) then (st, [])
      else
        let request := RollDice id (selectedDice (gameState st)) in
        let '(st, result) := handleApiCall reply st in
        (match result with
         | Some result =>
             setGameState
               (withSelectedDice [] (mapBackendToFrontend result)) st
         | None => st
         end,
         [request])
  | None => (st, [])
  end.

(** The guard reads the state the function was created in and the update
    the state it is applied to: the same state here. The index is not
    compared with the number of dice. *)
Definition toggleDie (index : Z) (st : HookState) : HookState :=
  if rollsLeft (gameState st) =? 3 then st
  else
    let prev := gameState st in
    setGameState
      (withSelectedDice
         (if existsb (λ i, i =? index) (selectedDice prev)
          then List.filter (λ i, negb (i =? index)) (selectedDice prev)
          else selectedDice prev ++ [index])
         prev)
      st.

(** The [categoryMap] object of [scoreCategory]. *)
Definition categoryMap : gmap string string :=
  list_to_map
    [ ("ones", "ones");
      ("twos", "twos");
      ("threes", "threes");
      ("fours", "fours");
      ("fives", "fives");
      ("sixes", "sixes");
      ("threeOfkind", "threeofkind");
      ("fourOfkind", "fourofkind");
      ("fullHouse", "fullhouse");
      ("smallStraight", "smallStraight");
      ("largeStraight", "largeStraight");
      ("yahtzee", "yahtzee");
      ("chance", "chance") ].

(** The guard lets through a category only if the score sheet holds [null]
    under that very name. *)
Definition scoreCategory (category : string) (reply : Settled Backend.GameState)
    (st : HookState) : HookState * list Request :=
  match currentGameId st with
  | Some id =>
      if (id =? 0)
         || negb (Js.is_null (scoreSheet_get (scoreSheet (gameState st)) category))
      then (st, [])
      else
        let backendCategory := categoryMap !! category in
        let '(st, result) := handleApiCall reply st in
        (match result with
         | Some result =>
             setPossibleScores None
               (setGameState
                  (withSelectedDice [] (mapBackendToFrontend result)) st)
         | None => st
         end,
         [SelectScore id backendCategory])
  | None => (st, [])
  end.

Definition fetchPossibleScores (reply : Settled (gmap string Z)) (st : HookState)
  : HookState * list Request :=
  match currentGameId st with
  | Some id =>
      if id =? 0 then (st, [])
      else
        let '(st, result) := handleApiCall reply st in
        (match result with
         | Some result => setPossibleScores (Some result) st
         | None => st
         end,
         [GetPossibleScores id])
  | None => (st, [])
  end.

(** The body of the effect that follows the dice:
    [if (currentGameId && gameState.rollsLeft < 3) fetchPossibleScores()]. *)
Definition fetchEffect (reply : Settled (gmap string Z)) (st : HookState)
  : HookState * list Request :=
  match currentGameId st with
  | Some id =>
      if negb (id =? 0) && (rollsLeft (gameState st) <? 3)
      then fetchPossibleScores reply st
      else (st, [])
  | None => (st, [])
  end.

(** One operation of the hook with its reply, when no other call comes in
    between (calls that overlap are the matter of [hookStep] below). *)
Inductive step : HookState → HookState → Prop :=
| step_newGame playerName reply st :
    step st (newGame playerName reply st).1
| step_rollDice reply st :
    step st (rollDice reply st).1
| step_toggleDie index st :
    step st (toggleDie index st)
| step_scoreCategory category reply st :
    step st (scoreCategory category reply st).1
| step_fetchPossibleScores reply st :
    step st (fetchPossibleScores reply st).1
| step_fetchEffect reply st :
    step st (fetchEffect reply st).1.

(** The states the hook can be in after any number of such operations. *)
Definition reachable (st : HookState) : Prop := rtc step initialState st.

(** A game identifier that passes the test [currentGameId && ...]. *)
Definition hasGame (st : HookState) : Prop :=
  ∃ id, currentGameId st = Some id ∧ id ≠ 0.

(** The game is the same in two states: only [loading] and [error] may
    differ. *)
Definition sameGame (st st' : HookState) : Prop :=
  gameState st' = gameState st ∧
  currentGameId st' = currentGameId st ∧
  possibleScores st' = possibleScores st.

(** The operations that talk to the server, called in one state. *)
Definition serverCalls (playerName category : string)
    (game : Settled Backend.GameState) (scores : Settled (gmap string Z))
    (st : HookState) : list (HookState * list Request) :=
  [ newGame playerName game st;
    rollDice game st;
    scoreCategory category game st;
    fetchPossibleScores scores st;
    fetchEffect scores st ].

(** The entry [getPossibleScores] builds when it has no fetched scores. *)
Definition localOption (dice : list Z) (sheet : ScoreSheet)
    (entry : string * string) : ScoreOption :=
  {| category := entry.1;
     name := entry.2;
     score := calculateLocalScore dice entry.1;
     isAvailable := Js.is_null (scoreSheet_get sheet entry.1) |}.

(** A state in the middle of a turn, and a reply of the server, for the
    examples. *)
Definition midTurn : HookState :=
  {| gameState :=
       {| dice := [2; 5; 5; 1; 6]; selectedDice := [0; 4]; rollsLeft := 2;
          currentRound := 1; scoreSheet := emptySheet;
          gameComplete := false; totalScore := 0 |};
     currentGameId := Some 12;
     possibleScores := Some {[ "ones" := 1; "fives" := 10; "chance" := 19 ]};
     loading := false;
     error := None |}.

Definition rolled : Backend.GameState :=
  {| Backend.gameId := 12;
     Backend.dice := [2; 3; 5; 4; 6];
     Backend.rollsLeft := 1;
     Backend.currentRound := 1;
     Backend.scoreSheet := emptySheet;
     Backend.gameComplete := false;
     Backend.totalScore := 0 |}.

(** How the lower-section cases relate on one hand. *)
Definition lowerRulesConsistent (hand : list Z) : bool :=
  let three := calculateLocalScore hand "threeofkind" in
  let four := calculateLocalScore hand "fourofkind" in
  let full := calculateLocalScore hand "fullhouse" in
  let small := calculateLocalScore hand "smallstraight" in
  let large := calculateLocalScore hand "largestraight" in
  let yahtzee := calculateLocalScore hand "yahtzee" in
  let chance := calculateLocalScore hand "chance" in
  bool_decide (yahtzee = 50 → four = chance ∧ full = 0)
  && bool_decide (four ≠ 0 → three = four ∧ four = chance)
  && bool_decide (full = 25 → three = chance ∧ four = 0)
  && bool_decide (large = 40 → small = 30)
  && bool_decide (small = 30 → three = 0 ∧ full = 0).

(** What every operation keeps when the operations run one after the other,
    each with its reply: no die is selected twice, no request is pending,
    fetched scores are held only with a game, nothing has changed while no
    game was ever created, and no die is selected while three rolls are
    left. *)
Definition invariant (st : HookState) : Prop :=
  NoDup (selectedDice (gameState st)) ∧
  loading st = false ∧
  (possibleScores st ≠ None → hasGame st) ∧
  (currentGameId st = None →
   gameState st = initialGameState ∧ possibleScores st = None) ∧
  (rollsLeft (gameState st) = 3 → selectedDice (gameState st) = []).

(** ** Calls that overlap

    The hook awaits every reply without holding anything back: a call can
    start while others are pending, and replies arrive in any order. A
    function of the hook reads the state of the render it was created in
    (its closure), which may be older than the state its updates apply to. *)

(** The functions of the hook that send a request. *)
Inductive Call : Type :=
| CallNewGame (playerName : string)
| CallRollDice
| CallScoreCategory (category : string)
| CallFetchPossibleScores
| CallFetchEffect.

(** The request a call sends when its guard lets it through. The guard and
    the arguments are read in the closure. *)
Definition requestOf (call : Call) (closure : HookState) : option Request :=
  match call with
  | CallNewGame playerName => Some (CreateNewGame playerName)
  | CallRollDice =>
      match currentGameId closure with
      | Some id =>
          if (id =? 0) || (rollsLeft (gameState closure) <=? 0) then None
          else Some (RollDice id (selectedDice (gameState closure)))
      | None => None
      end
  | CallScoreCategory category =>
      match currentGameId closure with
      | Some id =>
          if (id =? 0)
             || negb (Js.is_null
                        (scoreSheet_get (scoreSheet (gameState closure)) category))
          then None
          else Some (SelectScore id (categoryMap !! category))
      | None => None
      end
  | CallFetchPossibleScores =>
      match currentGameId closure with
      | Some id => if id =? 0 then None else Some (GetPossibleScores id)
      | None => None
      end
  | CallFetchEffect =>
      match currentGameId closure with
      | Some id =>
          if negb (id =? 0) && (rollsLeft (gameState closure) <? 3)
          then Some (GetPossibleScores id)
          else None
      | None => None
      end
  end.

(** [setLoading(true); setError(null)], before the [await]. *)
Definition beginApiCall (st : HookState) : HookState :=
  setError None (setLoading true st).

(** What the server sends back. *)
Inductive Answer : Type :=
| GameAnswer (game : Backend.GameState)
| ScoresAnswer (scores : gmap string Z).

(** The replies of the two kinds of request. *)
Definition gameReply (reply : Settled Backend.GameState) : Settled Answer :=
  match reply with
  | Fulfilled game => Fulfilled (GameAnswer game)
  | Rejected err => Rejected err
  end.

Definition scoresReply (reply : Settled (gmap string Z)) : Settled Answer :=
  match reply with
  | Fulfilled scores => Fulfilled (ScoresAnswer scores)
  | Rejected err => Rejected err
  end.

(** The answer has the type the request expects. *)
Definition answerFits (request : Request) (reply : Settled Answer) : Prop :=
  match reply, request with
  | Rejected _, _ => True
  | Fulfilled (ScoresAnswer _), GetPossibleScores _ => True
  | Fulfilled (ScoresAnswer _), _ => False
  | Fulfilled (GameAnswer _), GetPossibleScores _ => False
  | Fulfilled (GameAnswer _), _ => True
  end.

(** The setters called once the reply of a request has arrived, in order:
    those of [catch] and [finally] in [handleApiCall], then those of the
    function that awaited it. None of them reads the closure. *)
Definition settlement (request : Request) (reply : Settled Answer)
  : list (HookState → HookState) :=
  match reply with
  | Rejected err => [setError (Some (errorMessage err)); setLoading false]
  | Fulfilled answer =>
      setLoading false ::
      match request, answer with
      | CreateNewGame _, GameAnswer result =>
          [ setCurrentGameId (Some (Backend.gameId result));
            setGameState (mapBackendToFrontend result);
            setPossibleScores None ]
      | RollDice _ _, GameAnswer result =>
          [ setGameState (withSelectedDice [] (mapBackendToFrontend result)) ]
      | SelectScore _ _, GameAnswer result =>
          [ setGameState (withSelectedDice [] (mapBackendToFrontend result));
            setPossibleScores None ]
      | GetPossibleScores _, ScoresAnswer result =>
          [ setPossibleScores (Some result) ]
      | _, _ => []
      end
  end.

(** The states the hook goes through while the setters are applied. *)
Fixpoint applied (updates : list (HookState → HookState)) (st : HookState)
  : list HookState :=
  match updates with
  | [] => []
  | update :: updates => update st :: applied updates (update st)
  end.

(** The state once they are all applied. *)
Definition settled (request : Request) (reply : Settled Answer)
    (st : HookState) : HookState :=
  foldl (λ st update, update st) st (settlement request reply).

(** [toggleDie] created in one render and applied to a later state. *)
Definition toggleDieIn (closure : HookState) (index : Z) (st : HookState)
  : HookState :=
  if rollsLeft (gameState closure) =? 3 then st
  else
    let prev := gameState st in
    setGameState
      (withSelectedDice
         (if existsb (λ i, i =? index) (selectedDice prev)
          then List.filter (λ i, negb (i =? index)) (selectedDice prev)
          else selectedDice prev ++ [index])
         prev)
      st.

(** The hook at one moment: its state, the states it has been in (each may
    have been rendered, and is then the closure of the functions created in
    that render), and the requests that await their reply. *)
Record Hook : Type := {
  now : HookState;
  renders : list HookState;
  pending : list Request
}.

Definition initialHook : Hook :=
  {| now := initialState; renders := [initialState]; pending := [] |}.

(** One event. With [staleToggle] a [toggleDie] of any render can be called;
    without, only the one of the current state. *)
Inductive hookStep (staleToggle : bool) : Hook → Hook → Prop :=
| hook_call call closure request h :
    closure ∈ renders h →
    requestOf call closure = Some request →
    hookStep staleToggle h
      {| now := beginApiCall (now h);
         renders := beginApiCall (now h) :: renders h;
         pending := request :: pending h |}
| hook_toggleDie index closure h :
    closure ∈ renders h →
    (staleToggle = false → closure = now h) →
    hookStep staleToggle h
      {| now := toggleDieIn closure index (now h);
         renders := toggleDieIn closure index (now h) :: renders h;
         pending := pending h |}
| hook_reply request reply before after h :
    pending h = before ++ request :: after →
    answerFits request reply →
    hookStep staleToggle h
      {| now := settled request reply (now h);
         renders := applied (settlement request reply) (now h) ++ renders h;
         pending := before ++ after |}.

(** What the hook can come to, with calls that overlap and closures of any
    age; and the same when [toggleDie] is always the one of the current
    state. *)
Definition overlapping (h : Hook) : Prop := rtc (hookStep true) initialHook h.

Definition overlappingCurrentToggle (h : Hook) : Prop :=
  rtc (hookStep false) initialHook h.

(** What holds of every state the hook has been in. *)
Definition renderInvariant (st : HookState) : Prop :=
  NoDup (selectedDice (gameState st)) ∧
  (currentGameId st = None →
   gameState st = initialGameState ∧ possibleScores st = None).

(** What every event keeps. *)
Definition hookInvariant (h : Hook) : Prop :=
  now h ∈ renders h ∧
  Forall renderInvariant (renders h) ∧
  (currentGameId (now h) = None →
   Forall (λ st, currentGameId st = None) (renders h) ∧
   Forall (λ request, ∃ playerName, request = CreateNewGame playerName)
     (pending h)).

(** A game as the server creates it, and the state once it is stored, for
    the examples. *)
Definition created : Backend.GameState :=
  {| Backend.gameId := 12;
     Backend.dice := [1; 1; 1; 1; 1];
     Backend.rollsLeft := 3;
     Backend.currentRound := 1;
     Backend.scoreSheet := emptySheet;
     Backend.gameComplete := false;
     Backend.totalScore := 0 |}.

Definition started : HookState :=
  settled (CreateNewGame "Player") (Fulfilled (GameAnswer created))
    (beginApiCall initialState).

Definition startedHook : Hook :=
  {| now := started;
     renders :=
       applied
         (settlement (CreateNewGame "Player") (Fulfilled (GameAnswer created)))
         (beginApiCall initialState)
       ++ [beginApiCall initialState; initialState];
     pending := [] |}.

(** While three rolls are left, no die is selected. *)
Definition firstRollInvariant (h : Hook) : Prop :=
  now h ∈ renders h ∧
  Forall (λ st, rollsLeft (gameState st) = 3 → selectedDice (gameState st) = [])
    (renders h).

(** Membership in a list that is written out. *)
Ltac elem_of_literal :=
  repeat first [apply list_elem_of_here | apply list_elem_of_further].

(** Non-membership of a string constant in a list of other constants. *)
Ltac not_elem_of_literal :=
  let Hin := fresh "Hin" in
  intros Hin; cbv delta [caseLabels] in Hin;
  repeat (apply elem_of_cons in Hin as [Hin|Hin]; [discriminate Hin|]);
  by apply elem_of_nil in Hin.

(** ** Shape of the output *)

Lemma getPossibleScores_length (st : HookState) :
  length (getPossibleScores st) = 13%nat.
Proof. unfold getPossibleScores. by rewrite length_fmap. Qed.

Lemma getPossibleScores_categories (st : HookState) :
  category <$> getPossibleScores st = categories.*1.
Proof. reflexivity. Qed.

Lemma getPossibleScores_names (st : HookState) :
  name <$> getPossibleScores st = categories.*2.
Proof. reflexivity. Qed.


Lemma scoreFor_fetched (st : HookState) (c : string) :
  scoreFor st c =
    default (calculateLocalScore (dice (gameState st)) c) (fetchedScore st c).
Proof.
  unfold scoreFor, fetchedScore.
  destruct (possibleScores st) as [fetched|]; [|reflexivity].
  cbn [mbind option_bind]. by destruct (fetched !! _).
Qed.

Lemma scoreFor_local (st : HookState) (c : string) :
  fetchedScore st c = None →
  scoreFor st c = calculateLocalScore (dice (gameState st)) c.
Proof. intros H. by rewrite scoreFor_fetched, H. Qed.

Lemma fetchedScore_null (st : HookState) (c : string) :
  possibleScores st = None → fetchedScore st c = None.
Proof. unfold fetchedScore. by intros ->. Qed.

(** The entry found under an identifier of the [categories] array is the one
    built from that element. *)
Lemma entryFor_categories (st : HookState) (c n : string) :
  (c, n) ∈ categories →
  entryFor c (getPossibleScores st) = Some (scoreOption st (c, n)).
Proof.
  intros Hin. unfold categories in Hin.
  repeat (apply elem_of_cons in Hin as [[= -> ->]|Hin]; [reflexivity|]).
  by apply elem_of_nil in Hin.
Qed.

(** ** The object of counts *)

Section Counts.

Implicit Types (acc : Js.NumObject) (dice : list Z) (k v c : Z).

Lemma or_zero_default (x : option Z) : Js.or_zero x = default 0 x.
Proof. destruct x as [n|]; simpl; [|done]. destruct (Z.eqb_spec n 0); lia. Qed.

Lemma get_set acc k v k' :
  Js.get (Js.set acc k v) k' = if k =? k' then Some v else Js.get acc k'.
Proof.
  induction acc as [|[k0 w] acc IH]; simpl.
  - done.
  - destruct (Z.eqb_spec k0 k) as [->|Hne]; simpl.
    + by destruct (Z.eqb_spec k k').
    + rewrite IH. destruct (Z.eqb_spec k0 k') as [->|]; [|done].
      by destruct (Z.eqb_spec k k'); [lia|].
Qed.

Lemma set_keys acc k v :
  (Js.set acc k v).*1 = if decide (k ∈ acc.*1) then acc.*1 else acc.*1 ++ [k].
Proof.
  induction acc as [|[k0 w] acc IH]; [done|].
  cbn [Js.set]. destruct (Z.eqb_spec k0 k) as [->|Hne]; rewrite !fmap_cons.
  - rewrite decide_True; [done|]. apply elem_of_cons; by left.
  - cbn [fst]. rewrite IH. destruct (decide (k ∈ acc.*1)) as [Hin|Hnin].
    + rewrite decide_True; [done|]. apply elem_of_cons; by right.
    + rewrite decide_False; [done|].
      intros [?|?]%elem_of_cons; [congruence|done].
Qed.

Lemma set_NoDup acc k v : NoDup acc.*1 → NoDup (Js.set acc k v).*1.
Proof.
  intros Hnd. rewrite set_keys. case_decide; [done|].
  apply NoDup_app. split_and!; [done| |apply NoDup_singleton].
  intros x Hx ->%list_elem_of_singleton. done.
Qed.

Lemma get_elem_of acc k c :
  NoDup acc.*1 → (k, c) ∈ acc ↔ Js.get acc k = Some c.
Proof.
  induction acc as [|[k0 w] acc IH]; simpl; intros Hnd.
  - split; [by intros ?%elem_of_nil|done].
  - apply NoDup_cons in Hnd as [Hk0 Hnd]. rewrite elem_of_cons.
    destruct (Z.eqb_spec k0 k) as [->|Hne].
    + split.
      * intros [[= ->]|Hin]; [done|].
        destruct Hk0. apply list_elem_of_fmap. by exists (k, c).
      * intros [= ->]. by left.
    + rewrite <- (IH Hnd). split; [|by right].
      intros [[= ? ?]|?]; [congruence|done].
Qed.

Lemma countDice_NoDup dice : NoDup (countDice dice).*1.
Proof.
  unfold countDice.
  enough (∀ acc, NoDup acc.*1 →
    NoDup (fold_left
      (λ acc die, Js.set acc die (Js.or_zero (Js.get acc die) + 1))
      dice acc).*1) as H by (apply H; constructor).
  induction dice as [|d dice IH]; simpl; intros acc Hnd; [done|].
  apply IH. by apply set_NoDup.
Qed.

(** After the [reduce], the property of a face holds the number of its
    occurrences, and faces that do not occur have no property. *)
Lemma get_countDice dice v :
  Js.get (countDice dice) v =
    if decide (v ∈ dice) then Some (occurrences v dice) else None.
Proof.
  unfold countDice.
  enough (∀ acc,
    Js.get
      (fold_left
         (λ acc die, Js.set acc die (Js.or_zero (Js.get acc die) + 1))
         dice acc) v =
    if decide (v ∈ dice)
    then Some (default 0 (Js.get acc v) + occurrences v dice)
    else Js.get acc v) as H.
  { rewrite H. simpl. case_decide; [f_equal; lia|done]. }
  unfold occurrences.
  induction dice as [|d dice IH]; intros acc; [done|].
  cbn [fold_left count_occ].
  rewrite IH, get_set, or_zero_default.
  destruct (Z.eq_dec d v) as [->|Hne].
  - rewrite Z.eqb_refl. rewrite (decide_True (P := v ∈ v :: dice));
      [|by apply elem_of_cons; left].
    case_decide as Hin; simpl; f_equal; [lia|].
    rewrite list_elem_of_In in Hin.
    apply (count_occ_not_In Z.eq_dec) in Hin. lia.
  - destruct (Z.eqb_spec d v) as [?|_]; [done|].
    destruct (decide (v ∈ dice)) as [Hin|Hnin].
    + rewrite decide_True; [done|]. apply elem_of_cons; by right.
    + rewrite decide_False; [done|].
      intros [?|?]%elem_of_cons; [congruence|done].
Qed.

Lemma insert_by_perm {A} (le : A → A → bool) (x : A) (l : list A) :
  Js.insert_by le x l ≡ₚ x :: l.
Proof.
  induction l as [|y l IH]; simpl; [done|].
  destruct (le x y); [done|]. rewrite IH. apply Permutation_swap.
Qed.

Lemma sort_by_perm {A} (le : A → A → bool) (l : list A) :
  Js.sort_by le l ≡ₚ l.
Proof.
  unfold Js.sort_by. induction l as [|y l IH]; simpl; [done|].
  by rewrite insert_by_perm, IH.
Qed.

Lemma filter_split_perm {A} (p : A → bool) (l : list A) :
  List.filter p l ++ List.filter (λ x, negb (p x)) l ≡ₚ l.
Proof.
  induction l as [|y l IH]; simpl; [done|].
  destruct (p y); simpl.
  - by rewrite IH.
  - by rewrite <- Permutation_middle, IH.
Qed.

(** [Object.values] enumerates every property once, whatever the order. *)
Lemma values_perm acc : Js.values acc ≡ₚ acc.*2.
Proof.
  unfold Js.values. by rewrite sort_by_perm, filter_split_perm.
Qed.

Lemma elem_of_values_countDice dice c :
  c ∈ Js.values (countDice dice) ↔ ∃ v, v ∈ dice ∧ occurrences v dice = c.
Proof.
  rewrite values_perm, list_elem_of_fmap. split.
  - intros [[k c'] [-> Hin]]. simpl. exists k.
    apply get_elem_of in Hin; [|apply countDice_NoDup].
    rewrite get_countDice in Hin. case_decide; naive_solver.
  - intros (v & Hin & <-). exists (v, occurrences v dice). split; [done|].
    apply get_elem_of; [apply countDice_NoDup|].
    rewrite get_countDice. by rewrite decide_True.
Qed.

(** [Object.values(counts).some(p)] *)
Lemma some_values_countDice (p : Z → bool) dice :
  existsb p (Js.values (countDice dice)) = true ↔
  ∃ v, v ∈ dice ∧ p (occurrences v dice) = true.
Proof.
  rewrite existsb_exists. split.
  - intros (c & Hin%list_elem_of_In%elem_of_values_countDice & Hp).
    destruct Hin as (v & Hv & <-). eauto.
  - intros (v & Hv & Hp). exists (occurrences v dice). split; [|done].
    apply list_elem_of_In, elem_of_values_countDice. eauto.
Qed.

End Counts.

(** ** The cases of [calculateLocalScore] that its callers reach *)

Section ReachedCases.

Implicit Types (dice : list Z) (st : HookState).


Lemma countFace_occurrences (n : Z) dice : countFace n dice = occurrences n dice.
Proof.
  unfold countFace, occurrences. f_equal.
  induction dice as [|d dice IH]; [done|]. cbn [List.filter count_occ].
  destruct (Z.eqb_spec d n) as [->|Hne].
  - destruct (Z.eq_dec n n); [|done]. cbn [length]. by rewrite IH.
  - by destruct (Z.eq_dec d n).
Qed.

Lemma fold_left_add dice (a : Z) : fold_left Z.add dice a = a + sumDice dice.
Proof.
  revert a. induction dice as [|d dice IH]; intros a; cbn [fold_left sumDice foldr].
  - lia.
  - rewrite IH. unfold sumDice. lia.
Qed.

Lemma add_exact (a b : Z) : Z.abs (a + b) ≤ maxSafeInteger → Js.add a b = a + b.
Proof.
  unfold maxSafeInteger, Js.add. intros Hsafe. cbv zeta.
  destruct (Z.ltb_spec (Z.abs (a + b)) (2 ^ 53)) as [_|?]; [done|lia].
Qed.

(** On safe dice the sum of JavaScript numbers is the sum of the integers. *)
Lemma numberSum_exact dice : safeDice dice → numberSum dice = sumDice dice.
Proof.
  unfold safeDice, numberSum.
  enough (∀ a, Z.abs a + foldr (λ d acc, Z.abs d + acc) 0 dice ≤ maxSafeInteger →
               fold_left Js.add dice a = a + sumDice dice) as H.
  { intros Hsafe. rewrite H; [lia|]. cbn. lia. }
  unfold sumDice. induction dice as [|d dice IH]; intros a Hsafe;
    cbn [fold_left foldr] in *.
  - lia.
  - assert (0 ≤ foldr (λ d acc, Z.abs d + acc) 0 dice) as Hpos
      by (clear; induction dice; cbn [foldr]; lia).
    rewrite add_exact by lia. rewrite IH by lia. lia.
Qed.

Lemma safeDice_perm dice dice' : dice ≡ₚ dice' → safeDice dice → safeDice dice'.
Proof.
  unfold safeDice. intros Hperm.
  enough (foldr (λ d acc, Z.abs d + acc) 0 dice
          = foldr (λ d acc, Z.abs d + acc) 0 dice') as -> by done.
  induction Hperm; cbn [foldr]; lia.
Qed.

(** Beyond the safe integers the two sums part: the source adds 1 three
    times to [Number.MAX_SAFE_INTEGER] without passing 2^53. *)
Lemma numberSum_rounds :
  numberSum [9007199254740991; 1; 1; 1] = 9007199254740992 ∧
  sumDice [9007199254740991; 1; 1; 1] = 9007199254740994 ∧
  numberSum [1; 1; 1; 9007199254740991] = 9007199254740994.
Proof. by vm_compute. Qed.

Lemma calculateLocalScore_upper dice (c : string) (n : Z) :
  (c, n) ∈ upperSection →
  calculateLocalScore dice c = occurrences n dice * n.
Proof.
  intros Hin. unfold upperSection in Hin.
  repeat (apply elem_of_cons in Hin as [[= -> ->]|Hin];
          [unfold calculateLocalScore; cbn [String.eqb Ascii.eqb Bool.eqb];
           by rewrite countFace_occurrences|]).
  by apply elem_of_nil in Hin.
Qed.

Lemma calculateLocalScore_chance dice :
  calculateLocalScore dice "chance" = sumDice dice.
Proof.
  unfold calculateLocalScore. cbn [String.eqb Ascii.eqb Bool.eqb].
  by rewrite fold_left_add.
Qed.

Lemma calculateLocalScore_yahtzee dice :
  calculateLocalScore dice "yahtzee" =
    if existsb (λ c, c =? 5) (Js.values (countDice dice)) then 50 else 0.
Proof. reflexivity. Qed.

(** A [case] label is compared with [===]: a category that is none of the
    labels reaches [default]. *)
Lemma calculateLocalScore_default dice (c : string) :
  c ∉ caseLabels → calculateLocalScore dice c = 0.
Proof.
  intros Hc. unfold calculateLocalScore.
  repeat match goal with
  | |- context [String.eqb c ?l] =>
      destruct (String.eqb_spec c l) as [->|_];
      [exfalso; apply Hc; unfold caseLabels; elem_of_literal|]
  end.
  reflexivity.
Qed.

Lemma occurrences_length dice (v : Z) :
  occurrences v dice = Z.of_nat (length dice) ↔ Forall (λ d, d = v) dice.
Proof.
  unfold occurrences. induction dice as [|d dice IH]; [by split|].
  cbn [count_occ length]. rewrite Forall_cons.
  pose proof (count_occ_bound Z.eq_dec v dice) as Hle.
  destruct (Z.eq_dec d v) as [->|Hne].
  - rewrite <- IH. split; [intros; split; [done|lia]|intros [_ ?]; lia].
  - split; [lia|by intros [? _]].
Qed.

Lemma calculateLocalScore_yahtzee_all_equal dice (v : Z) :
  length dice = 5%nat → Forall (λ d, d = v) dice →
  calculateLocalScore dice "yahtzee" = 50.
Proof.
  intros Hlen Hall. rewrite calculateLocalScore_yahtzee.
  replace (existsb _ _) with true; [done|].
  symmetry. apply some_values_countDice. exists v. split.
  - destruct dice as [|d dice]; [done|].
    apply Forall_cons in Hall as [-> _]. apply elem_of_cons; by left.
  - apply occurrences_length in Hall. rewrite Hall, Hlen. reflexivity.
Qed.

Lemma calculateLocalScore_yahtzee_not_all_equal dice :
  length dice = 5%nat → (¬ ∃ v, Forall (λ d, d = v) dice) →
  calculateLocalScore dice "yahtzee" = 0.
Proof.
  intros Hlen Hnot. rewrite calculateLocalScore_yahtzee.
  destruct (existsb _ _) eqn:Hsome; [|done].
  apply some_values_countDice in Hsome as (v & _ & Hfive%Z.eqb_eq).
  destruct Hnot. exists v. apply occurrences_length. by rewrite Hfive, Hlen.
Qed.

End ReachedCases.

(** ** Claims about the cases that are reached *)

(** C8: for a valid hand whose five dice show the same value, the yahtzee
    entry of the output scores 50, and for a valid hand whose dice are not all
    equal it scores 0. The entry is the engine's own score, that is, the one
    computed when the server has supplied no score for the category. *)
Theorem yahtzee_entry_score (st : HookState) :
  validHand (dice (gameState st)) →
  fetchedScore st "yahtzee" = None →
  ∃ e, entryFor "yahtzee" (getPossibleScores st) = Some e ∧
       name e = "YAHTZEE!" ∧
       ((∃ v, Forall (λ d, d = v) (dice (gameState st))) → score e = 50) ∧
       ((¬ ∃ v, Forall (λ d, d = v) (dice (gameState st))) → score e = 0).
Proof.
  intros [Hlen _] Hnone.
  exists (scoreOption st ("yahtzee", "YAHTZEE!")).
  split; [apply entryFor_categories; unfold categories; elem_of_literal|].
  split; [done|].
  cbn [scoreOption score]. rewrite (scoreFor_local _ _ Hnone). split.
  - intros [v Hall]. by apply (calculateLocalScore_yahtzee_all_equal _ v).
  - by apply calculateLocalScore_yahtzee_not_all_equal.
Qed.

Lemma yahtzee_entry_score_witness :
  ∃ e, entryFor "yahtzee" (getPossibleScores initialState) = Some e ∧
       name e = "YAHTZEE!" ∧
       ((∃ v, Forall (λ d, d = v) [1; 1; 1; 1; 1]) → score e = 50) ∧
       ((¬ ∃ v, Forall (λ d, d = v) [1; 1; 1; 1; 1]) → score e = 0).
Proof.
  apply (yahtzee_entry_score initialState).
  - split; [reflexivity|]. repeat constructor; lia.
  - reflexivity.
Defined.

(** C9: for every hand (the valid ones in particular) and every upper
    category, the local score is the number of dice showing the category's
    face times that face, and the chance score is the sum of the dice; these
    are the scores of the entries when the server has supplied none. *)
Theorem upper_section_and_chance_scores (st : HookState) (c : string) (n : Z) :
  (c, n) ∈ upperSection →
  fetchedScore st c = None →
  fetchedScore st "chance" = None →
  let hand := dice (gameState st) in
  calculateLocalScore hand c = occurrences n hand * n ∧
  calculateLocalScore hand "chance" = sumDice hand ∧
  (∃ e, entryFor c (getPossibleScores st) = Some e ∧
        score e = occurrences n hand * n) ∧
  (∃ e, entryFor "chance" (getPossibleScores st) = Some e ∧
        score e = sumDice hand).
Proof.
  intros Hin Hc Hchance hand.
  pose proof (calculateLocalScore_upper hand c n Hin) as Hupper.
  pose proof (calculateLocalScore_chance hand) as Hsum.
  split_and!; [done|done| |].
  - assert (∃ nm, (c, nm) ∈ categories) as [nm Hnm].
    { unfold upperSection in Hin. unfold categories.
      repeat (apply elem_of_cons in Hin as [[= -> ->]|Hin];
              [eexists; elem_of_literal|]).
      by apply elem_of_nil in Hin. }
    exists (scoreOption st (c, nm)).
    split; [by apply entryFor_categories|].
    cbn [scoreOption score]. by rewrite (scoreFor_local _ _ Hc).
  - exists (scoreOption st ("chance", "Chance")).
    split; [apply entryFor_categories; unfold categories; elem_of_literal|].
    cbn [scoreOption score]. by rewrite (scoreFor_local _ _ Hchance).
Qed.

Lemma upper_section_and_chance_scores_witness :
  let st := withDice [2; 2; 3; 3; 3] initialState in
  calculateLocalScore [2; 2; 3; 3; 3] "threes" = occurrences 3 [2; 2; 3; 3; 3] * 3 ∧
  calculateLocalScore [2; 2; 3; 3; 3] "chance" = sumDice [2; 2; 3; 3; 3] ∧
  (∃ e, entryFor "threes" (getPossibleScores st) = Some e ∧
        score e = occurrences 3 [2; 2; 3; 3; 3] * 3) ∧
  (∃ e, entryFor "chance" (getPossibleScores st) = Some e ∧
        score e = sumDice [2; 2; 3; 3; 3]).
Proof.
  apply (upper_section_and_chance_scores
           (withDice [2; 2; 3; 3; 3] initialState) "threes" 3).
  - unfold upperSection. elem_of_literal.
  - reflexivity.
  - reflexivity.
Defined.

(** C10: [calculateLocalScore] returns a number, without raising, for every
    array of dice and every category string; the number is 0 for every string
    that is not a label of its [switch], and the camel-case identifiers of the
    lower section its callers use are not labels. *)
Theorem calculateLocalScore_total_and_default (dice : list Z) (c : string) :
  (∃ n, call_calculateLocalScore dice c = Returns n) ∧
  (c ∉ caseLabels → call_calculateLocalScore dice c = Returns 0) ∧
  Forall (λ k, (k ∉ caseLabels) ∧ call_calculateLocalScore dice k = Returns 0)
    ["threeOfkind"; "fourOfkind"; "fullHouse"; "smallStraight"; "largeStraight"].
Proof.
  unfold call_calculateLocalScore. split_and!.
  - by eexists.
  - intros Hc. f_equal. by apply calculateLocalScore_default.
  - repeat (apply Forall_cons; split;
            [by split; [not_elem_of_literal
                       |f_equal; apply calculateLocalScore_default;
                        not_elem_of_literal]|]).
    apply Forall_nil_2.
Qed.

Lemma calculateLocalScore_total_and_default_witness :
  call_calculateLocalScore [3; 3; 3; 1; 2] "fouroOkind" = Returns 0.
Proof.
  destruct (calculateLocalScore_total_and_default [3; 3; 3; 1; 2] "fouroOkind")
    as (_ & Hdefault & _).
  apply Hdefault. not_elem_of_literal.
Defined.

(** ** Claims that the code breaks *)

(** The camel-case identifiers of the lower section never match a label of
    the [switch], whose lower-section labels are all in lower case: without a
    fetched score their entries score 0 whatever the dice. *)
Lemma lower_section_entries_score_zero (st : HookState) (c : string) :
  c ∈ ["threeOfkind"; "fouroOkind"; "fullHouse"; "smallStraight"; "largeStraight"] →
  fetchedScore st c = None →
  scoreFor st c = 0.
Proof.
  intros Hc Hnone. rewrite (scoreFor_local _ _ Hnone).
  apply calculateLocalScore_default.
  repeat (apply elem_of_cons in Hc as [->|Hc]; [not_elem_of_literal|]).
  by apply elem_of_nil in Hc.
Qed.

(** C1: with no fetched scores and the valid hand [6,6,6,6,2], in which 6
    occurs four times and the dice sum to 26, the three-of-a-kind entry and
    the four-of-a-kind entry both score 0 instead of 26: the identifiers
    ['threeOfkind'] and ['fouroOkind'] reach [default], while the rule sits
    under the labels ['threeofkind'] and ['fourofkind']. *)
Theorem of_a_kind_entries_score_zero :
  let hand := [6; 6; 6; 6; 2] in
  let st := withDice hand initialState in
  validHand hand ∧ possibleScores st = None ∧
  occurrences 6 hand = 4 ∧ sumDice hand = 26 ∧
  getPossibleScores st !! 6%nat =
    Some {| category := "threeOfkind"; name := "Three of a Kind";
            score := 0; isAvailable := true |} ∧
  getPossibleScores st !! 7%nat =
    Some {| category := "fouroOkind"; name := "Four of a Kind";
            score := 0; isAvailable := false |} ∧
  calculateLocalScore hand "threeofkind" = 26 ∧
  calculateLocalScore hand "fourofkind" = 26.
Proof.
  cbv zeta. split_and!; try reflexivity.
  split; [reflexivity|]. repeat constructor; lia.
Qed.

(** C4: with no fetched scores and the valid hand [2,2,3,3,3], whose counts
    are exactly a pair and a triple, the full-house entry scores 0 instead of
    25: the identifier ['fullHouse'] reaches [default], while the rule sits
    under the label ['fullhouse']. *)
Theorem full_house_entry_scores_zero :
  let hand := [2; 2; 3; 3; 3] in
  let st := withDice hand initialState in
  validHand hand ∧ possibleScores st = None ∧
  occurrences 2 hand = 2 ∧ occurrences 3 hand = 3 ∧
  getPossibleScores st !! 8%nat =
    Some {| category := "fullHouse"; name := "Full House";
            score := 0; isAvailable := true |} ∧
  calculateLocalScore hand "fullhouse" = 25.
Proof.
  cbv zeta. split_and!; try reflexivity.
  split; [reflexivity|]. repeat constructor; lia.
Qed.

(** C5: with no fetched scores and the valid hand [1,2,3,4,5], the
    small-straight entry scores 0 instead of 30 and the large-straight entry
    0 instead of 40: the identifiers ['smallStraight'] and ['largeStraight']
    reach [default], while the rules sit under the labels ['smallstraight']
    and ['largestraight']. *)
Theorem straight_entries_score_zero :
  let hand := [1; 2; 3; 4; 5] in
  let st := withDice hand initialState in
  validHand hand ∧ possibleScores st = None ∧
  Js.join (Js.set_of (Js.sort_numeric hand)) = "12345" ∧
  getPossibleScores st !! 9%nat =
    Some {| category := "smallStraight"; name := "Small Straight";
            score := 0; isAvailable := true |} ∧
  getPossibleScores st !! 10%nat =
    Some {| category := "largeStraight"; name := "Large Straight";
            score := 0; isAvailable := true |} ∧
  calculateLocalScore hand "smallstraight" = 30 ∧
  calculateLocalScore hand "largestraight" = 40.
Proof.
  cbv zeta. split_and!; try reflexivity.
  split; [reflexivity|]. repeat constructor; lia.
Qed.

Lemma scoreCategories_eq :
  scoreCategories =
    list_to_set
      [ "ones"; "twos"; "threes"; "fours"; "fives"; "sixes";
        "threeOfkind"; "fourOfkind"; "fullHouse";
        "smallStraight"; "largeStraight"; "yahtzee"; "chance" ].
Proof.
  unfold scoreCategories, scoreMap.
  rewrite dom_list_to_map_L. reflexivity.
Qed.

Lemma fourOfkind_category : "fourOfkind" ∈ scoreCategories.
Proof. apply elem_of_dom. by eexists. Qed.

Lemma fouroOkind_no_category : "fouroOkind" ∉ scoreCategories.
Proof. apply not_elem_of_dom. reflexivity. Qed.

(** C2: the output always has 13 entries in the order of the [categories]
    array, with the 13 display names; but its identifiers are not the score
    categories: the eighth entry carries ['fouroOkind'], which is no key of
    [scoreMap] and no field of the score sheet, and no entry carries
    ['fourOfkind']. *)
Theorem category_identifiers_of_output (st : HookState) :
  length (getPossibleScores st) = 13%nat ∧
  (category <$> getPossibleScores st) =
    [ "ones"; "twos"; "threes"; "fours"; "fives"; "sixes";
      "threeOfkind"; "fouroOkind"; "fullHouse";
      "smallStraight"; "largeStraight"; "yahtzee"; "chance" ] ∧
  (name <$> getPossibleScores st) =
    [ "Ones"; "Twos"; "Threes"; "Fours"; "Fives"; "Sixes";
      "Three of a Kind"; "Four of a Kind"; "Full House";
      "Small Straight"; "Large Straight"; "YAHTZEE!"; "Chance" ] ∧
  size scoreCategories = 13%nat ∧
  "fourOfkind" ∈ scoreCategories ∧
  entryFor "fourOfkind" (getPossibleScores st) = None ∧
  ("fouroOkind" ∉ scoreCategories) ∧
  scoreSheet_get (scoreSheet (gameState st)) "fouroOkind" = Js.Undefined ∧
  list_to_set (category <$> getPossibleScores st) ≠ scoreCategories.
Proof.
  split_and!;
    [apply getPossibleScores_length | reflexivity | reflexivity | reflexivity
    |apply fourOfkind_category | reflexivity | apply fouroOkind_no_category
    |reflexivity | ].
  rewrite getPossibleScores_categories. intros Heq.
  apply fouroOkind_no_category. rewrite <- Heq.
  apply elem_of_list_to_set. unfold categories. cbn [fmap list_fmap fst].
  elem_of_literal.
Qed.

(** C3: the availability of each entry in terms of the score sheet. Twelve
    entries are available exactly when their category holds [null]; the
    four-of-a-kind entry reads the sheet under ['fouroOkind'], finds
    [undefined], and is never available: in the initial state, where
    [fourOfkind] is [null], the claim requires [true] and the code gives
    [false]. The computed score is reported in either case. *)
Theorem four_of_a_kind_never_available (st : HookState) :
  let sheet := scoreSheet (gameState st) in
  (isAvailable <$> getPossibleScores st) =
    [ bool_decide (ones sheet = None); bool_decide (twos sheet = None);
      bool_decide (threes sheet = None); bool_decide (fours sheet = None);
      bool_decide (fives sheet = None); bool_decide (sixes sheet = None);
      bool_decide (threeOfkind sheet = None);
      false;
      bool_decide (fullHouse sheet = None);
      bool_decide (smallStraight sheet = None);
      bool_decide (largeStraight sheet = None);
      bool_decide (yahtzee sheet = None); bool_decide (chance sheet = None) ] ∧
  (score <$> getPossibleScores st) = (scoreFor st <$> categories.*1) ∧
  fourOfkind (scoreSheet (gameState initialState)) = None ∧
  getPossibleScores initialState !! 7%nat =
    Some {| category := "fouroOkind"; name := "Four of a Kind";
            score := 0; isAvailable := false |}.
Proof.
  cbv zeta. split_and!; [|reflexivity..].
  assert (∀ o : option Z,
    Js.is_null (nullable o) = bool_decide (o = None)) as Hnull
    by (by intros [n|]).
  unfold getPossibleScores, categories.
  cbn [fmap list_fmap scoreOption isAvailable].
  unfold scoreSheet_get. cbn [String.eqb Ascii.eqb Bool.eqb Js.is_null].
  by rewrite !Hnull.
Qed.

(** ** Claims that the code decides otherwise *)

(** C6, as stated, fails: a hand of four dice and a hand of sevens are not
    valid, and both are scored; no call ends with an [InvalidHand]
    condition. *)
Lemma invalid_hand_is_scored :
  (¬ validHand [1; 1; 1; 1]) ∧
  call_calculateLocalScore [1; 1; 1; 1] "ones" = Returns 4 ∧
  call_calculateLocalScore [1; 1; 1; 1] "ones" ≠ Throws "InvalidHand" ∧
  (¬ validHand [7; 7; 7; 7; 7]) ∧
  call_calculateLocalScore [7; 7; 7; 7; 7] "chance" = Returns 35 ∧
  call_calculateLocalScore [7; 7; 7; 7; 7] "yahtzee" = Returns 50 ∧
  call_getPossibleScores (withDice [1; 1; 1; 1] initialState)
    ≠ Throws "InvalidHand".
Proof.
  split_and!; try reflexivity; try discriminate.
  - intros [Hlen _]. discriminate Hlen.
  - intros [_ Hall]. apply Forall_cons in Hall as [? _]. lia.
Qed.

(** C6, amended: a hand that is not valid is scored by the same rules as a
    valid one, applied to the dice that are there, as long as these are
    integers whose sums are exact. Every call returns: the upper categories
    count the matching dice, chance adds up the dice, and the output still
    has its 13 entries. *)
Theorem invalid_hand_scored_by_same_rules (st : HookState) (c : string) :
  ¬ validHand (dice (gameState st)) →
  safeDice (dice (gameState st)) →
  let hand := dice (gameState st) in
  call_calculateLocalScore hand c = Returns (calculateLocalScore hand c) ∧
  (∀ u n, (u, n) ∈ upperSection →
          call_calculateLocalScore hand u = Returns (occurrences n hand * n)) ∧
  numberSum hand = sumDice hand ∧
  call_calculateLocalScore hand "chance" = Returns (sumDice hand) ∧
  (c ∉ caseLabels → call_calculateLocalScore hand c = Returns 0) ∧
  ∃ out, call_getPossibleScores st = Returns out ∧ length out = 13%nat.
Proof.
  intros _ Hsafe hand. unfold call_calculateLocalScore, call_getPossibleScores.
  split_and!.
  - reflexivity.
  - intros u n Hin. f_equal. by apply calculateLocalScore_upper.
  - by apply numberSum_exact.
  - f_equal. apply calculateLocalScore_chance.
  - intros Hc. f_equal. by apply calculateLocalScore_default.
  - eexists. split; [reflexivity|]. apply getPossibleScores_length.
Qed.

Lemma invalid_hand_scored_by_same_rules_witness :
  let hand := [1; 1; 1; 1] in
  call_calculateLocalScore hand "yahtzee" = Returns (calculateLocalScore hand "yahtzee") ∧
  (∀ u n, (u, n) ∈ upperSection →
          call_calculateLocalScore hand u = Returns (occurrences n hand * n)) ∧
  numberSum hand = sumDice hand ∧
  call_calculateLocalScore hand "chance" = Returns (sumDice hand) ∧
  ("yahtzee" ∉ caseLabels → call_calculateLocalScore hand "yahtzee" = Returns 0) ∧
  ∃ out, call_getPossibleScores (withDice hand initialState) = Returns out ∧
         length out = 13%nat.
Proof.
  apply (invalid_hand_scored_by_same_rules
           (withDice [1; 1; 1; 1] initialState) "yahtzee").
  - intros [Hlen _]. discriminate Hlen.
  - unfold safeDice, maxSafeInteger. cbn. lia.
Defined.




(** ** The rules under the lower-case labels

    What the lower-section cases compute when they are entered, against the
    rules in the words of the specification. *)

Section LowerCaseLabels.


(** Under the labels ['threeofkind'] and ['fourofkind'] the score is the sum
    of the dice when some value occurs at least three, respectively four,
    times, and 0 otherwise, for every array of safe dice, on which the sum of
    the source is the exact one. *)
Lemma calculateLocalScore_ofAKind_label (dice : list Z) (k : Z) (l : string) :
  (l, k) ∈ [("threeofkind", 3); ("fourofkind", 4)] →
  safeDice dice →
  numberSum dice = sumDice dice ∧
  (ofAKind k dice → calculateLocalScore dice l = sumDice dice) ∧
  (¬ ofAKind k dice → calculateLocalScore dice l = 0).
Proof.
  intros Hl Hsafe. split; [by apply numberSum_exact|].
  assert (calculateLocalScore dice l =
          if existsb (λ c, c >=? k) (Js.values (countDice dice))
          then sumDice dice else 0) as ->.
  { repeat (apply elem_of_cons in Hl as [[= -> ->]|Hl];
            [unfold calculateLocalScore; cbn [String.eqb Ascii.eqb Bool.eqb];
             by rewrite fold_left_add|]).
    by apply elem_of_nil in Hl. }
  assert (existsb (λ c, c >=? k) (Js.values (countDice dice)) = true
          ↔ ofAKind k dice) as Hiff.
  { rewrite some_values_countDice. unfold ofAKind.
    by setoid_rewrite Z.geb_le. }
  destruct (existsb _ _).
  - split; [done|]. intros []. by apply Hiff.
  - split; [|done]. intros Hk%Hiff. done.
Qed.

Lemma calculateLocalScore_ofAKind_label_witness :
  numberSum [6; 6; 6; 6; 2] = sumDice [6; 6; 6; 6; 2] ∧
  (ofAKind 3 [6; 6; 6; 6; 2] →
   calculateLocalScore [6; 6; 6; 6; 2] "threeofkind" = sumDice [6; 6; 6; 6; 2]) ∧
  (¬ ofAKind 3 [6; 6; 6; 6; 2] →
   calculateLocalScore [6; 6; 6; 6; 2] "threeofkind" = 0).
Proof.
  apply (calculateLocalScore_ofAKind_label [6; 6; 6; 6; 2] 3 "threeofkind").
  - elem_of_literal.
  - unfold safeDice, maxSafeInteger. cbn. lia.
Defined.


Lemma elem_of_hands (hand : list Z) :
  Forall (λ d, 1 ≤ d ≤ 6) hand → hand ∈ hands (length hand).
Proof.
  induction 1 as [|d hand Hd _ IH]; cbn [length hands].
  - apply list_elem_of_here.
  - apply list_elem_of_bind. exists d. split.
    + apply list_elem_of_fmap. by exists hand.
    + assert (d = 1 ∨ d = 2 ∨ d = 3 ∨ d = 4 ∨ d = 5 ∨ d = 6) as Hcases by lia.
      unfold faces. destruct_or!; subst d; elem_of_literal.
Qed.


Lemma lowerRulesAgree_hands : forallb lowerRulesAgree (hands 5) = true.
Proof. vm_compute. reflexivity. Qed.

(** Under the labels ['fullhouse'], ['smallstraight'] and ['largestraight']
    a valid hand scores 25 exactly for a pair with a triple, 30 exactly when
    it shows four faces in a row, 40 exactly when it shows five in a row, and
    0 otherwise: checked on each of the 7776 hands. *)
Lemma calculateLocalScore_lower_labels (hand : list Z) :
  validHand hand →
  calculateLocalScore hand "fullhouse"
    = (if bool_decide (pairAndTriple hand) then 25 else 0) ∧
  calculateLocalScore hand "smallstraight"
    = (if bool_decide (smallRun hand) then 30 else 0) ∧
  calculateLocalScore hand "largestraight"
    = (if bool_decide (largeRun hand) then 40 else 0).
Proof.
  intros [Hlen Hfaces].
  pose proof (elem_of_hands hand Hfaces) as Hin. rewrite Hlen in Hin.
  pose proof lowerRulesAgree_hands as Hall.
  rewrite forallb_forall in Hall.
  specialize (Hall hand (proj1 (list_elem_of_In _ _) Hin)).
  unfold lowerRulesAgree in Hall.
  apply andb_prop in Hall as [[H1%bool_decide_eq_true H2%bool_decide_eq_true]%andb_prop
                              H3%bool_decide_eq_true].
  done.
Qed.

Lemma calculateLocalScore_lower_labels_witness :
  calculateLocalScore [2; 2; 3; 3; 3] "fullhouse"
    = (if bool_decide (pairAndTriple [2; 2; 3; 3; 3]) then 25 else 0) ∧
  calculateLocalScore [2; 2; 3; 3; 3] "smallstraight"
    = (if bool_decide (smallRun [2; 2; 3; 3; 3]) then 30 else 0) ∧
  calculateLocalScore [2; 2; 3; 3; 3] "largestraight"
    = (if bool_decide (largeRun [2; 2; 3; 3; 3]) then 40 else 0).
Proof.
  apply (calculateLocalScore_lower_labels [2; 2; 3; 3; 3]).
  split; [reflexivity|]. repeat constructor; lia.
Defined.

End LowerCaseLabels.

(** ** Selecting dice: [toggleDie] *)

Section ToggleDie.

Implicit Types (st : HookState) (index j : Z) (sel : list Z).

(** The selection [toggleDie] computes from the previous one. *)
Lemma toggleDie_selectedDice index st :
  rollsLeft (gameState st) ≠ 3 →
  selectedDice (gameState (toggleDie index st)) =
    if decide (index ∈ selectedDice (gameState st))
    then List.filter (λ i, negb (i =? index)) (selectedDice (gameState st))
    else selectedDice (gameState st) ++ [index].
Proof.
  intros Hrolls. unfold toggleDie.
  destruct (Z.eqb_spec (rollsLeft (gameState st)) 3) as [?|_]; [done|].
  cbn [gameState setGameState selectedDice withSelectedDice].
  destruct (existsb _ _) eqn:Hex.
  - rewrite decide_True; [done|].
    apply existsb_exists in Hex as (i & Hi & ->%Z.eqb_eq).
    by apply list_elem_of_In.
  - rewrite decide_False; [done|]. intros Hin%list_elem_of_In.
    apply not_true_iff_false in Hex. apply Hex, existsb_exists.
    exists index. split; [done|apply Z.eqb_refl].
Qed.

Lemma elem_of_filter_ne index j sel :
  j ∈ List.filter (λ i, negb (i =? index)) sel ↔ j ∈ sel ∧ j ≠ index.
Proof.
  rewrite !list_elem_of_In, filter_In, negb_true_iff, Z.eqb_neq. done.
Qed.

Lemma toggleDie_rest index st :
  toggleDie index st =
    setGameState
      (withSelectedDice (selectedDice (gameState (toggleDie index st)))
         (gameState st)) st.
Proof.
  unfold toggleDie. destruct (_ =? 3); [|done]. by destruct st as [[]].
Qed.

(** After the first roll, [toggleDie] flips the membership of the index it is
    given, whatever that index is, and of no other; it leaves the rest of the
    state as it was. Before the first roll it does nothing. *)
Theorem toggleDie_flips_membership index st :
  rollsLeft (gameState st) ≠ 3 →
  let st' := toggleDie index st in
  (index ∈ selectedDice (gameState st') ↔ index ∉ selectedDice (gameState st)) ∧
  (∀ j, j ≠ index →
        j ∈ selectedDice (gameState st') ↔ j ∈ selectedDice (gameState st)) ∧
  st' = setGameState
          (withSelectedDice (selectedDice (gameState st')) (gameState st)) st.
Proof.
  intros Hrolls st'. subst st'. split_and!.
  - rewrite (toggleDie_selectedDice _ _ Hrolls). case_decide as Hin.
    + rewrite elem_of_filter_ne. intuition congruence.
    + rewrite elem_of_app, list_elem_of_singleton. intuition congruence.
  - intros j Hj. rewrite (toggleDie_selectedDice _ _ Hrolls). case_decide.
    + rewrite elem_of_filter_ne. intuition congruence.
    + rewrite elem_of_app, list_elem_of_singleton. intuition congruence.
  - apply toggleDie_rest.
Qed.

Lemma toggleDie_flips_membership_witness :
  let st' := toggleDie 7 midTurn in
  (7 ∈ selectedDice (gameState st') ↔ 7 ∉ selectedDice (gameState midTurn)) ∧
  (∀ j, j ≠ 7 →
        j ∈ selectedDice (gameState st') ↔ j ∈ selectedDice (gameState midTurn)) ∧
  st' = setGameState
          (withSelectedDice (selectedDice (gameState st')) (gameState midTurn))
          midTurn.
Proof.
  apply (toggleDie_flips_membership 7 midTurn). cbn. lia.
Defined.

Lemma filter_ne_NoDup index sel :
  NoDup sel → NoDup (List.filter (λ i, negb (i =? index)) sel).
Proof.
  induction 1 as [|x sel Hx _ IH]; cbn [List.filter]; [constructor|].
  destruct (negb (x =? index)); [|done].
  constructor; [|done]. rewrite elem_of_filter_ne. intuition congruence.
Qed.





End ToggleDie.

(** ** The operations that talk to the server *)

Section ServerCalls.

Implicit Types (st : HookState) (game : Settled Backend.GameState)
  (scores : Settled (gmap string Z)) (b : Backend.GameState).

Lemma handleApiCall_rejected {A} (err : Thrown) st :
  handleApiCall (A := A) (Rejected err) st =
    (setLoading false (setError (Some (errorMessage err)) st), None).
Proof. reflexivity. Qed.

Lemma handleApiCall_fulfilled {A} (value : A) st :
  handleApiCall (Fulfilled value) st =
    (setLoading false (setError None st), Some value).
Proof. reflexivity. Qed.

(** The test [!currentGameId] of the three guarded operations. *)
Lemma hasGame_dec st :
  hasGame st ∨ currentGameId st = None ∨ currentGameId st = Some 0.
Proof.
  unfold hasGame. destruct (currentGameId st) as [id|]; [|by auto].
  destruct (decide (id = 0)) as [->|]; eauto.
Qed.

Lemma rollDice_sent game st id :
  currentGameId st = Some id → id ≠ 0 → 0 < rollsLeft (gameState st) →
  rollDice game st =
    (match (handleApiCall game st).2 with
     | Some result =>
         setGameState (withSelectedDice [] (mapBackendToFrontend result))
           (handleApiCall game st).1
     | None => (handleApiCall game st).1
     end,
     [RollDice id (selectedDice (gameState st))]).
Proof.
  intros Hid Hne Hrolls. unfold rollDice. rewrite Hid.
  destruct (Z.eqb_spec id 0) as [?|_]; [done|].
  destruct (Z.leb_spec (rollsLeft (gameState st)) 0) as [?|_]; [lia|].
  cbn [orb]. by destruct (handleApiCall game st).
Qed.

Lemma rollDice_blocked game st :
  ¬ (hasGame st ∧ 0 < rollsLeft (gameState st)) → rollDice game st = (st, []).
Proof.
  intros Hno. unfold rollDice, hasGame in *.
  destruct (currentGameId st) as [id|]; [|done].
  destruct (Z.eqb_spec id 0) as [?|Hne]; [done|].
  destruct (Z.leb_spec (rollsLeft (gameState st)) 0) as [?|Hpos]; [done|].
  destruct Hno. eauto.
Qed.

Lemma scoreCategory_sent (c : string) game st id :
  currentGameId st = Some id → id ≠ 0 →
  scoreSheet_get (scoreSheet (gameState st)) c = Js.Null →
  scoreCategory c game st =
    (match (handleApiCall game st).2 with
     | Some result =>
         setPossibleScores None
           (setGameState (withSelectedDice [] (mapBackendToFrontend result))
              (handleApiCall game st).1)
     | None => (handleApiCall game st).1
     end,
     [SelectScore id (categoryMap !! c)]).
Proof.
  intros Hid Hne Hnull. unfold scoreCategory. rewrite Hid, Hnull.
  destruct (Z.eqb_spec id 0) as [?|_]; [done|].
  cbn [orb negb Js.is_null]. by destruct (handleApiCall game st).
Qed.

Lemma scoreCategory_blocked (c : string) game st :
  ¬ (hasGame st ∧ scoreSheet_get (scoreSheet (gameState st)) c = Js.Null) →
  scoreCategory c game st = (st, []).
Proof.
  intros Hno. unfold scoreCategory, hasGame in *.
  destruct (currentGameId st) as [id|]; [|done].
  destruct (Z.eqb_spec id 0) as [?|Hne]; [done|].
  destruct (scoreSheet_get _ c) eqn:Hget; [done| |done].
  destruct Hno. eauto.
Qed.

Lemma fetchPossibleScores_sent scores st id :
  currentGameId st = Some id → id ≠ 0 →
  fetchPossibleScores scores st =
    (match (handleApiCall scores st).2 with
     | Some result => setPossibleScores (Some result) (handleApiCall scores st).1
     | None => (handleApiCall scores st).1
     end,
     [GetPossibleScores id]).
Proof.
  intros Hid Hne. unfold fetchPossibleScores. rewrite Hid.
  destruct (Z.eqb_spec id 0) as [?|_]; [done|].
  by destruct (handleApiCall scores st).
Qed.

Lemma fetchPossibleScores_blocked scores st :
  ¬ hasGame st → fetchPossibleScores scores st = (st, []).
Proof.
  intros Hno. unfold fetchPossibleScores, hasGame in *.
  destruct (currentGameId st) as [id|]; [|done].
  destruct (Z.eqb_spec id 0) as [?|Hne]; [done|].
  destruct Hno. eauto.
Qed.

Lemma fetchEffect_cases scores st :
  fetchEffect scores st = fetchPossibleScores scores st ∨
  fetchEffect scores st = (st, []).
Proof.
  unfold fetchEffect. destruct (currentGameId st) as [id|]; [|by right].
  destruct (negb _ && _); [by left|by right].
Qed.

(** Only the categories of the score sheet can hold [null]. *)
Lemma scoreSheet_get_null (sheet : ScoreSheet) (c : string) :
  scoreSheet_get sheet c = Js.Null →
  c ∈ [ "ones"; "twos"; "threes"; "fours"; "fives"; "sixes";
        "threeOfkind"; "fourOfkind"; "fullHouse";
        "smallStraight"; "largeStraight"; "yahtzee"; "chance" ].
Proof.
  unfold scoreSheet_get.
  repeat match goal with
  | |- context [String.eqb c ?l] =>
      destruct (String.eqb_spec c l) as [->|_];
      [first [discriminate 1 | intros _; elem_of_literal]|]
  end.
  discriminate 1.
Qed.

(** [scoreCategory] sends a request only with a game and for a category of
    the score sheet that still holds [null]; the category it sends is then
    the entry of [categoryMap], never [undefined]. *)
Theorem scoreCategory_request (c : string) game st (request : Request) :
  request ∈ (scoreCategory c game st).2 →
  ∃ id backendCategory,
    request = SelectScore id (Some backendCategory) ∧
    currentGameId st = Some id ∧ id ≠ 0 ∧
    scoreSheet_get (scoreSheet (gameState st)) c = Js.Null ∧
    c ∈ scoreCategories ∧
    categoryMap !! c = Some backendCategory.
Proof.
  intros Hreq.
  assert (scoreSheet_get (scoreSheet (gameState st)) c = Js.Null) as Hnull.
  { destruct (scoreSheet_get _ c) eqn:Hget; [|done|];
      (rewrite scoreCategory_blocked in Hreq;
         [by apply elem_of_nil in Hreq|intros [_ ?]; congruence]). }
  destruct (hasGame_dec st) as [(id & Hid & Hne)|Hnone]; cycle 1.
  { rewrite scoreCategory_blocked in Hreq.
    - by apply elem_of_nil in Hreq.
    - intros [(id & Hid & Hne) _]. destruct Hnone; congruence. }
  rewrite (scoreCategory_sent c game st id) in Hreq by done.
  apply list_elem_of_singleton in Hreq as ->.
  assert (is_Some (categoryMap !! c) ∧ c ∈ scoreCategories) as [[k Hk] Hc].
  { apply scoreSheet_get_null in Hnull.
    repeat (apply elem_of_cons in Hnull as [->|Hnull];
            [split; [by eexists|reflexivity]|]).
    by apply elem_of_nil in Hnull. }
  exists id, k. by rewrite Hk.
Qed.

Lemma scoreCategory_request_witness :
  ∃ id backendCategory,
    SelectScore 12 (Some "fullhouse") = SelectScore id (Some backendCategory) ∧
    currentGameId midTurn = Some id ∧ id ≠ 0 ∧
    scoreSheet_get (scoreSheet (gameState midTurn)) "fullHouse" = Js.Null ∧
    "fullHouse" ∈ scoreCategories ∧
    categoryMap !! "fullHouse" = Some backendCategory.
Proof.
  apply (scoreCategory_request "fullHouse" (Fulfilled rolled) midTurn).
  apply list_elem_of_here.
Defined.

(** With a game, the entries of [getPossibleScores] that are available are
    exactly those whose identifier [scoreCategory] accepts; the identifier of
    the four-of-a-kind entry is accepted in no state. *)
Theorem available_entries_are_accepted (e : ScoreOption) game st :
  hasGame st →
  e ∈ getPossibleScores st →
  (isAvailable e = true ↔ (scoreCategory (category e) game st).2 ≠ []) ∧
  (name e = "Four of a Kind" →
   scoreCategory (category e) game st = (st, [])).
Proof.
  intros (id & Hid & Hne) Hin.
  apply list_elem_of_fmap in Hin as ([c n] & -> & Hin).
  cbn [scoreOption category isAvailable name]. split.
  - destruct (scoreSheet_get (scoreSheet (gameState st)) c) eqn:Hget;
      cbn [Js.is_null].
    + rewrite scoreCategory_blocked; [done|]. intros [_ ?]. congruence.
    + by rewrite (scoreCategory_sent c game st id).
    + rewrite scoreCategory_blocked; [done|]. intros [_ ?]. congruence.
  - intros ->. assert (c = "fouroOkind") as ->.
    { unfold categories in Hin.
      repeat (apply elem_of_cons in Hin as [Hin|Hin]; [by simplify_eq|]).
      by apply elem_of_nil in Hin. }
    apply scoreCategory_blocked. intros [_ Hnull]. discriminate Hnull.
Qed.

Lemma available_entries_are_accepted_witness :
  let e := {| category := "fouroOkind"; name := "Four of a Kind";
              score := 0; isAvailable := false |} in
  (isAvailable e = true ↔
   (scoreCategory (category e) (Fulfilled rolled) midTurn).2 ≠ []) ∧
  (name e = "Four of a Kind" →
   scoreCategory (category e) (Fulfilled rolled) midTurn = (midTurn, [])).
Proof.
  apply (available_entries_are_accepted _ (Fulfilled rolled) midTurn).
  - exists 12. split; [reflexivity|lia].
  - apply list_elem_of_In. vm_compute. tauto.
Defined.

End ServerCalls.

(** ** What the replies of the server change *)

Section Replies.

Implicit Types (st : HookState) (game : Settled Backend.GameState)
  (scores : Settled (gmap string Z)) (b : Backend.GameState).

Lemma handleApiCall_sameGame {A} (reply : Settled A) st :
  sameGame st (handleApiCall reply st).1.
Proof. by destruct reply. Qed.

(** A request that the server rejects changes nothing of the game, whatever
    the operation: the dice, the selection, the score sheet, the game
    identifier and the fetched scores stay; the message of the error is
    recorded and [loading] is back to [false]. An operation that sends no
    request leaves the whole state as it was, the previous error included. *)
Theorem rejected_request_keeps_game (playerName c : string) (err : Thrown) st :
  Forall
    (λ r, sameGame st r.1 ∧
          (r.2 ≠ [] → error r.1 = Some (errorMessage err) ∧ loading r.1 = false) ∧
          (r.2 = [] → r.1 = st))
    (serverCalls playerName c (Rejected err) (Rejected err) st).
Proof.
  set (P := λ r : HookState * list Request,
         sameGame st r.1 ∧
         (r.2 ≠ [] → error r.1 = Some (errorMessage err) ∧ loading r.1 = false) ∧
         (r.2 = [] → r.1 = st)).
  assert (∀ (A : Type) (request : Request),
    P ((handleApiCall (A := A) (Rejected err) st).1, [request])) as Hsent by done.
  assert (∀ r, r = (st, []) → P r) as Hblocked by (by intros r ->).
  assert (P (fetchPossibleScores (Rejected err) st)) as Hfetch.
  { destruct (hasGame_dec st) as [(id & Hid & Hne)|Hnone].
    - rewrite (fetchPossibleScores_sent _ st id) by done. apply Hsent.
    - apply Hblocked, fetchPossibleScores_blocked.
      intros (id & Hid & Hne). destruct Hnone; congruence. }
  unfold serverCalls. repeat apply Forall_cons_2; [..|apply Forall_nil_2].
  - apply (Hsent Backend.GameState).
  - destruct (hasGame_dec st) as [(id & Hid & Hne)|Hnone].
    + destruct (Z.lt_ge_cases 0 (rollsLeft (gameState st))).
      * rewrite (rollDice_sent _ st id) by done. apply Hsent.
      * apply Hblocked, rollDice_blocked. lia.
    + apply Hblocked, rollDice_blocked.
      intros [(id & Hid & Hne) _]. destruct Hnone; congruence.
  - destruct (hasGame_dec st) as [(id & Hid & Hne)|Hnone].
    + destruct (scoreSheet_get (scoreSheet (gameState st)) c) eqn:Hget.
      * apply Hblocked, scoreCategory_blocked. intros [_ ?]. congruence.
      * rewrite (scoreCategory_sent c _ st id) by done. apply Hsent.
      * apply Hblocked, scoreCategory_blocked. intros [_ ?]. congruence.
    + apply Hblocked, scoreCategory_blocked.
      intros [(id & Hid & Hne) _]. destruct Hnone; congruence.
  - apply Hfetch.
  - destruct (fetchEffect_cases (Rejected err) st) as [->| ->];
      [apply Hfetch|by apply Hblocked].
Qed.

(** A server that numbers a game 0 leaves the hook with a game it cannot
    play: after that [newGame], [rollDice], [scoreCategory],
    [fetchPossibleScores] and the effect send nothing and change nothing,
    whatever they are given. *)
Theorem game_numbered_zero_is_stuck (playerName c : string) b game scores st :
  Backend.gameId b = 0 →
  let st' := (newGame playerName (Fulfilled b) st).1 in
  currentGameId st' = Some 0 ∧
  gameState st' = mapBackendToFrontend b ∧
  Forall (λ r, r = (st', []))
    [ rollDice game st'; scoreCategory c game st';
      fetchPossibleScores scores st'; fetchEffect scores st' ].
Proof.
  intros Hzero st'.
  assert (currentGameId st' = Some 0) as Hid
    by (subst st'; cbn; by rewrite Hzero).
  assert (¬ hasGame st') as Hno
    by (intros (id & Hid' & Hne); congruence).
  split_and!; [done|done|].
  repeat apply Forall_cons_2; [..|apply Forall_nil_2].
  - apply rollDice_blocked. tauto.
  - apply scoreCategory_blocked. tauto.
  - by apply fetchPossibleScores_blocked.
  - destruct (fetchEffect_cases scores st') as [->| ->];
      [by apply fetchPossibleScores_blocked|done].
Qed.

Lemma game_numbered_zero_is_stuck_witness :
  let b := {| Backend.gameId := 0; Backend.dice := [1; 1; 1; 1; 1];
              Backend.rollsLeft := 3; Backend.currentRound := 1;
              Backend.scoreSheet := emptySheet;
              Backend.gameComplete := false; Backend.totalScore := 0 |} in
  let st' := (newGame "Player" (Fulfilled b) initialState).1 in
  currentGameId st' = Some 0 ∧
  gameState st' = mapBackendToFrontend b ∧
  Forall (λ r, r = (st', []))
    [ rollDice (Fulfilled rolled) st'; scoreCategory "chance" (Fulfilled rolled) st';
      fetchPossibleScores (Fulfilled ∅) st'; fetchEffect (Fulfilled ∅) st' ].
Proof.
  apply (game_numbered_zero_is_stuck "Player" "chance" _ (Fulfilled rolled)
           (Fulfilled ∅) initialState).
  reflexivity.
Defined.




Lemma getPossibleScores_local st :
  possibleScores st = None →
  getPossibleScores st =
    localOption (dice (gameState st)) (scoreSheet (gameState st)) <$> categories.
Proof.
  intros Hnone. unfold getPossibleScores. apply list_fmap_ext.
  intros _ [c n] _. unfold scoreOption, localOption, scoreFor.
  by rewrite Hnone.
Qed.

(** [newGame] and an accepted [scoreCategory] drop the fetched scores: once
    the server has answered, every entry is computed from the dice and the
    score sheet of the answer, and no die is selected. *)
Theorem answered_game_is_scored_locally (playerName c : string) b st :
  let fresh st' :=
    possibleScores st' = None ∧
    selectedDice (gameState st') = [] ∧
    getPossibleScores st' =
      localOption (Backend.dice b) (Backend.scoreSheet b) <$> categories in
  fresh (newGame playerName (Fulfilled b) st).1 ∧
  ((scoreCategory c (Fulfilled b) st).2 ≠ [] →
   fresh (scoreCategory c (Fulfilled b) st).1).
Proof.
  cbv zeta. split.
  - split_and!; [done|done|]. by apply getPossibleScores_local.
  - intros Hsent.
    destruct (hasGame_dec st) as [(id & Hid & Hne)|Hnone]; cycle 1.
    { rewrite scoreCategory_blocked in Hsent; [done|].
      intros [(id & Hid & Hne) _]. destruct Hnone; congruence. }
    destruct (scoreSheet_get (scoreSheet (gameState st)) c) eqn:Hget;
      [rewrite scoreCategory_blocked in Hsent; [done|intros [_ ?]; congruence]
      | |rewrite scoreCategory_blocked in Hsent; [done|intros [_ ?]; congruence]].
    rewrite (scoreCategory_sent c _ st id) by done.
    split_and!; [done|done|]. by apply getPossibleScores_local.
Qed.

Lemma answered_game_is_scored_locally_witness :
  (possibleScores (scoreCategory "chance" (Fulfilled rolled) midTurn).1 = None ∧
   selectedDice (gameState (scoreCategory "chance" (Fulfilled rolled) midTurn).1) = [] ∧
   getPossibleScores (scoreCategory "chance" (Fulfilled rolled) midTurn).1 =
     localOption (Backend.dice rolled) (Backend.scoreSheet rolled) <$> categories).
Proof.
  apply (answered_game_is_scored_locally "Player" "chance" rolled midTurn).
  discriminate.
Defined.

End Replies.

(** ** What holds in every state the hook can reach *)

Section Reachable.

Implicit Types (st : HookState).

Lemma step_invariant st st' : step st st' → invariant st → invariant st'.
Proof.
  intros Hstep Hinv.
  pose proof Hinv as (Hnd & Hload & Hfetched & Hnone & Hfirst).
  assert (∀ scores, invariant (fetchPossibleScores scores st).1) as Hfetch.
  { intros scores.
    destruct (hasGame_dec st) as [(id & Hid & Hne)|Hno].
    - rewrite (fetchPossibleScores_sent _ st id) by done.
      assert (hasGame st) by (by exists id).
      destruct scores; unfold invariant; cbn; split_and!; try done; congruence.
    - rewrite fetchPossibleScores_blocked; [done|].
      intros (id & Hid & Hne). destruct Hno; congruence. }
  destruct Hstep as [playerName reply st|reply st|index st
                    |c reply st|scores st|scores st].
  - destruct reply as [b|err]; unfold invariant; cbn; split_and!; try done.
    apply NoDup_nil_2.
  - destruct (hasGame_dec st) as [(id & Hid & Hne)|Hno].
    + destruct (Z.lt_ge_cases 0 (rollsLeft (gameState st))).
      * rewrite (rollDice_sent _ st id) by done.
        assert (hasGame st) by (by exists id).
        destruct reply; unfold invariant; cbn; split_and!; try done; try congruence.
        apply NoDup_nil_2.
      * rewrite rollDice_blocked; [done|lia].
    + rewrite rollDice_blocked; [done|].
      intros [(id & Hid & Hne) _]. destruct Hno; congruence.
  - destruct (decide (rollsLeft (gameState st) = 3)) as [Hthree|Hrolls].
    + unfold toggleDie. rewrite Hthree. done.
    + assert (rollsLeft (gameState (toggleDie index st)) ≠ 3) as Hrolls'
        by (unfold toggleDie; by destruct (Z.eqb_spec (rollsLeft (gameState st)) 3)).
      unfold invariant. split_and!.
      * rewrite (toggleDie_selectedDice _ _ Hrolls).
        case_decide; [by apply filter_ne_NoDup|].
        apply NoDup_app. split_and!; [done| |apply NoDup_singleton].
        by intros x Hx ->%list_elem_of_singleton.
      * unfold toggleDie. by destruct (_ =? 3).
      * unfold toggleDie. by destruct (_ =? 3).
      * intros Hid. exfalso. apply Hrolls.
        assert (currentGameId st = None) as Hid'
          by (revert Hid; unfold toggleDie; by destruct (_ =? 3)).
        by rewrite (proj1 (Hnone Hid')).
      * done.
  - destruct (hasGame_dec st) as [(id & Hid & Hne)|Hno].
    + destruct (scoreSheet_get (scoreSheet (gameState st)) c) eqn:Hget;
        [rewrite scoreCategory_blocked; [done|intros [_ ?]; congruence]
        | |rewrite scoreCategory_blocked; [done|intros [_ ?]; congruence]].
      rewrite (scoreCategory_sent c _ st id) by done.
      assert (hasGame st) by (by exists id).
      destruct reply; unfold invariant; cbn; split_and!; try done; try congruence.
      apply NoDup_nil_2.
    + rewrite scoreCategory_blocked; [done|].
      intros [(id & Hid & Hne) _]. destruct Hno; congruence.
  - apply Hfetch.
  - destruct (fetchEffect_cases scores st) as [->| ->]; [apply Hfetch|done].
Qed.

Lemma reachable_invariant st : reachable st → invariant st.
Proof.
  unfold reachable. revert st. apply rtc_ind_r.
  - unfold invariant. split_and!; [apply NoDup_nil_2|done..].
  - intros st st' _ Hstep IH. by apply (step_invariant st st').
Qed.

Lemma reachable_midTurn : reachable midTurn.
Proof.
  unfold reachable.
  set (created :=
    {| Backend.gameId := 12; Backend.dice := [1; 1; 1; 1; 1];
       Backend.rollsLeft := 3; Backend.currentRound := 1;
       Backend.scoreSheet := emptySheet;
       Backend.gameComplete := false; Backend.totalScore := 0 |}).
  set (first :=
    {| Backend.gameId := 12; Backend.dice := [2; 5; 5; 1; 6];
       Backend.rollsLeft := 2; Backend.currentRound := 1;
       Backend.scoreSheet := emptySheet;
       Backend.gameComplete := false; Backend.totalScore := 0 |}).
  eapply rtc_l; [apply (step_newGame "Player" (Fulfilled created))|].
  eapply rtc_l; [apply (step_rollDice (Fulfilled first))|].
  eapply rtc_l;
    [apply (step_fetchEffect
              (Fulfilled {[ "ones" := 1; "fives" := 10; "chance" := 19 ]}))|].
  eapply rtc_l; [apply (step_toggleDie 0)|].
  eapply rtc_l; [apply (step_toggleDie 4)|].
  apply rtc_refl.
Qed.

Lemma rollDice_request reply st id sel :
  RollDice id sel ∈ (rollDice reply st).2 →
  sel = selectedDice (gameState st) ∧ currentGameId st = Some id ∧ id ≠ 0
  ∧ 0 < rollsLeft (gameState st).
Proof.
  intros Hin.
  destruct (hasGame_dec st) as [(id' & Hid & Hne)|Hno].
  - destruct (Z.lt_ge_cases 0 (rollsLeft (gameState st))).
    + rewrite (rollDice_sent _ st id') in Hin by done.
      apply list_elem_of_singleton in Hin. by simplify_eq.
    + rewrite rollDice_blocked in Hin by lia. by apply elem_of_nil in Hin.
  - rewrite rollDice_blocked in Hin; [by apply elem_of_nil in Hin|].
    intros [(id' & Hid & Hne) _]. destruct Hno; congruence.
Qed.

(** In every state the hook can reach, whatever the server replied along
    the way, no die is selected twice: the selection sent by the next
    [rollDice] has no duplicate. *)
Theorem reachable_selection_NoDup game st :
  reachable st →
  NoDup (selectedDice (gameState st)) ∧
  ∀ id sel, RollDice id sel ∈ (rollDice game st).2 → NoDup sel.
Proof.
  intros Hreach. destruct (reachable_invariant st Hreach) as (Hnd & _).
  split; [done|]. intros id sel Hin.
  by apply rollDice_request in Hin as (-> & _).
Qed.

Lemma reachable_selection_NoDup_witness :
  NoDup (selectedDice (gameState midTurn)) ∧
  ∀ id sel, RollDice id sel ∈ (rollDice (Fulfilled rolled) midTurn).2 → NoDup sel.
Proof.
  apply (reachable_selection_NoDup (Fulfilled rolled) midTurn).
  apply reachable_midTurn.
Defined.

End Reachable.

(** ** The order of the dice *)

Section Order.

Implicit Types (dice : list Z) (l : list Z).

Lemma insert_by_leb_Sorted (x : Z) l :
  Sorted Z.le l → Sorted Z.le (Js.insert_by Z.leb x l).
Proof.
  induction 1 as [|y l Hsorted IH Hhd]; cbn [Js.insert_by].
  - by repeat constructor.
  - destruct (Z.leb_spec x y) as [Hle|Hlt].
    + by repeat constructor.
    + constructor; [done|].
      destruct Hhd as [|z l Hyz]; cbn [Js.insert_by].
      * constructor. lia.
      * destruct (x <=? z); constructor; [lia|done].
Qed.

Lemma sort_numeric_Sorted l : Sorted Z.le (Js.sort_numeric l).
Proof.
  unfold Js.sort_numeric, Js.sort_by.
  induction l as [|x l IH]; cbn [foldr]; [constructor|].
  by apply insert_by_leb_Sorted.
Qed.

(** [sort((a, b) => a - b)] forgets the order the dice came in. *)
Lemma sort_numeric_perm l l' :
  l ≡ₚ l' → Js.sort_numeric l = Js.sort_numeric l'.
Proof.
  intros Hperm. apply (Sorted_unique Z.le).
  - apply sort_numeric_Sorted.
  - apply sort_numeric_Sorted.
  - unfold Js.sort_numeric. by rewrite !sort_by_perm.
Qed.

Lemma to_int_not_nil (n : Z) :
  Z.to_int n ≠ Decimal.Pos Decimal.Nil ∧ Z.to_int n ≠ Decimal.Neg Decimal.Nil.
Proof.
  destruct n as [|p|p]; cbn; split; try discriminate;
    intros [= Hnil]; by apply DecimalPos.Unsigned.to_uint_nonnil in Hnil.
Qed.

(** Distinct integers have distinct string conversions. *)
Lemma toString_inj (a b : Z) : Js.toString a = Js.toString b → a = b.
Proof.
  unfold Js.toString. intros Heq.
  apply DecimalZ.to_int_inj.
  pose proof (to_int_not_nil a) as [Ha1 Ha2].
  pose proof (to_int_not_nil b) as [Hb1 Hb2].
  pose proof (NilZero.isi _ Ha1 Ha2) as Ha.
  pose proof (NilZero.isi _ Hb1 Hb2) as Hb.
  rewrite Heq in Ha. congruence.
Qed.

(** The default [sort] of two numbers does not depend on their order. *)
Lemma sort_default_pair (a b : Z) :
  Js.sort_default [a; b] = Js.sort_default [b; a].
Proof.
  unfold Js.sort_default, Js.sort_by. cbn [foldr Js.insert_by].
  destruct (String.leb (Js.toString a) (Js.toString b)) eqn:Hab,
           (String.leb (Js.toString b) (Js.toString a)) eqn:Hba; try done.
  - by rewrite (toString_inj a b (String.leb_antisym _ _ Hab Hba)).
  - destruct (String.leb_total (Js.toString a) (Js.toString b)); congruence.
Qed.

Lemma countDice_perm dice dice' :
  dice ≡ₚ dice' → countDice dice ≡ₚ countDice dice'.
Proof.
  intros Hperm.
  assert (∀ d, NoDup (countDice d)) as Hnd
    by (intros d; apply (NoDup_fmap_1 fst), countDice_NoDup).
  apply NoDup_Permutation; [done|done|].
  intros [k c].
  rewrite !get_elem_of, !get_countDice by apply countDice_NoDup.
  unfold occurrences.
  rewrite (proj1 (Permutation_count_occ Z.eq_dec dice dice') Hperm k).
  destruct (decide (k ∈ dice)) as [Hin|Hnin].
  - rewrite decide_True; [done|]. by rewrite <- Hperm.
  - rewrite decide_False; [done|]. by rewrite <- Hperm.
Qed.

Lemma sumDice_perm dice dice' : dice ≡ₚ dice' → sumDice dice = sumDice dice'.
Proof.
  unfold sumDice. induction 1; cbn [foldr]; lia.
Qed.

Lemma sort_by_length {A} (le : A → A → bool) (l : list A) :
  length (Js.sort_by le l) = length l.
Proof. by rewrite sort_by_perm. Qed.

(** The test of the full-house case, on the values of the counts. *)
Lemma fullhouse_test_perm (vals vals' : list Z) :
  vals ≡ₚ vals' →
  (bool_decide (length (Js.sort_default vals) = 2%nat)
   && bool_decide (Js.sort_default vals !! 0%nat = Some 2)
   && bool_decide (Js.sort_default vals !! 1%nat = Some 3)) =
  (bool_decide (length (Js.sort_default vals') = 2%nat)
   && bool_decide (Js.sort_default vals' !! 0%nat = Some 2)
   && bool_decide (Js.sort_default vals' !! 1%nat = Some 3)).
Proof.
  intros Hperm.
  destruct (decide (length vals = 2%nat)) as [Htwo|Hother].
  - destruct vals as [|a [|b [|? ?]]]; try done.
    apply Permutation_length_2_inv in Hperm as [-> | ->]; [done|].
    by rewrite (sort_default_pair a b).
  - unfold Js.sort_default. rewrite !sort_by_length.
    rewrite <- (Permutation_length Hperm).
    by rewrite !(bool_decide_eq_false_2 _ Hother).
Qed.

(** The score does not depend on the order of the dice, for any array of
    safe dice and any category: the sum the source forms is the same in
    either order, and so is every case of the [switch]. *)
Theorem calculateLocalScore_order_irrelevant dice dice' (c : string) :
  dice ≡ₚ dice' →
  safeDice dice →
  numberSum dice = numberSum dice' ∧
  calculateLocalScore dice c = calculateLocalScore dice' c.
Proof.
  intros Hperm Hsafe. split.
  { rewrite !numberSum_exact by eauto using safeDice_perm.
    by apply sumDice_perm. }
  unfold calculateLocalScore.
  assert (∀ n, countFace n dice = countFace n dice') as Hface.
  { intros n. rewrite !countFace_occurrences. unfold occurrences.
    by rewrite (proj1 (Permutation_count_occ Z.eq_dec dice dice') Hperm n). }
  assert (fold_left Z.add dice 0 = fold_left Z.add dice' 0) as Hsum
    by (rewrite !fold_left_add; f_equal; by apply sumDice_perm).
  assert (∀ p, existsb p (Js.values (countDice dice))
             = existsb p (Js.values (countDice dice'))) as Hsome.
  { intros p. apply eq_true_iff_eq. rewrite !some_values_countDice.
    pose proof (proj1 (Permutation_count_occ Z.eq_dec dice dice') Hperm)
      as Hcount.
    unfold occurrences. split; intros (v & Hv & Hp); exists v.
    - split; [by rewrite <- Hperm|by rewrite <- Hcount].
    - split; [by rewrite Hperm|by rewrite Hcount]. }
  assert (Js.values (countDice dice) ≡ₚ Js.values (countDice dice')) as Hvals
    by (rewrite !values_perm; by apply fmap_Permutation, countDice_perm).
  rewrite !Hface, Hsum, !Hsome, (fullhouse_test_perm _ _ Hvals),
    (sort_numeric_perm _ _ Hperm).
  reflexivity.
Qed.

Lemma calculateLocalScore_order_irrelevant_witness :
  numberSum [3; 2; 3; 2; 3] = numberSum [2; 2; 3; 3; 3] ∧
  calculateLocalScore [3; 2; 3; 2; 3] "fullhouse"
  = calculateLocalScore [2; 2; 3; 3; 3] "fullhouse".
Proof.
  apply calculateLocalScore_order_irrelevant.
  - etrans; [apply Permutation_swap|]. apply Permutation_skip.
    etrans; [apply Permutation_skip, Permutation_swap|].
    etrans; [apply Permutation_swap|]. reflexivity.
  - unfold safeDice, maxSafeInteger. cbn. lia.
Defined.

End Order.

(** ** Sizes of the scores *)

Section Sizes.

Implicit Types (dice : list Z).

Lemma occurrences_bounds (v : Z) dice :
  0 ≤ occurrences v dice ≤ Z.of_nat (length dice).
Proof.
  unfold occurrences. pose proof (count_occ_bound Z.eq_dec v dice). lia.
Qed.

Lemma sumDice_bounds dice :
  Forall (λ d, 1 ≤ d ≤ 6) dice →
  Z.of_nat (length dice) ≤ sumDice dice ≤ 6 * Z.of_nat (length dice).
Proof.
  unfold sumDice. induction 1 as [|d dice Hd _ IH]; cbn [foldr length]; lia.
Qed.

(** On dice that show one to six, every score lies between 0 and the larger
    of 50 and six times the number of dice; on a valid hand, between 0 and
    50, whatever the category string. *)
Theorem calculateLocalScore_bounds dice (c : string) :
  Forall (λ d, 1 ≤ d ≤ 6) dice →
  0 ≤ calculateLocalScore dice c ≤ Z.max 50 (6 * Z.of_nat (length dice)) ∧
  (validHand dice → 0 ≤ calculateLocalScore dice c ≤ 50).
Proof.
  intros Hfaces.
  assert (0 ≤ calculateLocalScore dice c
            ≤ Z.max 50 (6 * Z.of_nat (length dice))) as Hgen.
  { pose proof (sumDice_bounds dice Hfaces) as Hsum.
    assert (∀ n, 1 ≤ n ≤ 6 →
              0 ≤ countFace n dice * n ≤ 6 * Z.of_nat (length dice)) as Hface.
    { intros n Hn. rewrite countFace_occurrences.
      pose proof (occurrences_bounds n dice). nia. }
    pose proof (Hface 1 ltac:(lia)). pose proof (Hface 2 ltac:(lia)).
    pose proof (Hface 3 ltac:(lia)). pose proof (Hface 4 ltac:(lia)).
    pose proof (Hface 5 ltac:(lia)). pose proof (Hface 6 ltac:(lia)).
    unfold calculateLocalScore. rewrite fold_left_add.
    repeat match goal with
    | |- context [if ?b then _ else _] => destruct b
    end; lia. }
  split; [done|]. intros [Hlen _]. rewrite Hlen in Hgen. lia.
Qed.

Lemma calculateLocalScore_bounds_witness :
  0 ≤ calculateLocalScore [6; 6; 6; 6; 6] "yahtzee"
    ≤ Z.max 50 (6 * Z.of_nat (length [6; 6; 6; 6; 6])) ∧
  (validHand [6; 6; 6; 6; 6] →
   0 ≤ calculateLocalScore [6; 6; 6; 6; 6] "yahtzee" ≤ 50).
Proof.
  apply (calculateLocalScore_bounds [6; 6; 6; 6; 6] "yahtzee").
  repeat constructor; lia.
Defined.

Lemma upper_scores_cons (d : Z) dice :
  1 ≤ d ≤ 6 →
  occurrences 1 (d :: dice) * 1 + occurrences 2 (d :: dice) * 2
  + occurrences 3 (d :: dice) * 3 + occurrences 4 (d :: dice) * 4
  + occurrences 5 (d :: dice) * 5 + occurrences 6 (d :: dice) * 6
  = d + (occurrences 1 dice * 1 + occurrences 2 dice * 2
         + occurrences 3 dice * 3 + occurrences 4 dice * 4
         + occurrences 5 dice * 5 + occurrences 6 dice * 6).
Proof.
  intros Hd. unfold occurrences. cbn [count_occ].
  repeat match goal with
  | |- context [Z.eq_dec d ?n] => destruct (Z.eq_dec d n)
  end; lia.
Qed.

(** On dice that show one to six, the six upper-section scores add up to
    the chance score: every die counts in exactly one upper category. *)
Theorem upper_scores_add_up_to_chance dice :
  Forall (λ d, 1 ≤ d ≤ 6) dice →
  calculateLocalScore dice "ones" + calculateLocalScore dice "twos"
  + calculateLocalScore dice "threes" + calculateLocalScore dice "fours"
  + calculateLocalScore dice "fives" + calculateLocalScore dice "sixes"
  = calculateLocalScore dice "chance".
Proof.
  intros Hfaces.
  rewrite (calculateLocalScore_upper dice "ones" 1),
    (calculateLocalScore_upper dice "twos" 2),
    (calculateLocalScore_upper dice "threes" 3),
    (calculateLocalScore_upper dice "fours" 4),
    (calculateLocalScore_upper dice "fives" 5),
    (calculateLocalScore_upper dice "sixes" 6),
    calculateLocalScore_chance
    by (unfold upperSection; elem_of_literal).
  induction Hfaces as [|d dice Hd _ IH].
  - reflexivity.
  - rewrite (upper_scores_cons d dice Hd), IH. reflexivity.
Qed.

Lemma upper_scores_add_up_to_chance_witness :
  calculateLocalScore [2; 5; 5; 1; 6; 3] "ones"
  + calculateLocalScore [2; 5; 5; 1; 6; 3] "twos"
  + calculateLocalScore [2; 5; 5; 1; 6; 3] "threes"
  + calculateLocalScore [2; 5; 5; 1; 6; 3] "fours"
  + calculateLocalScore [2; 5; 5; 1; 6; 3] "fives"
  + calculateLocalScore [2; 5; 5; 1; 6; 3] "sixes"
  = calculateLocalScore [2; 5; 5; 1; 6; 3] "chance".
Proof.
  apply (upper_scores_add_up_to_chance [2; 5; 5; 1; 6; 3]).
  repeat constructor; lia.
Defined.

End Sizes.

(** ** How the cases relate *)

Section Relations.

Implicit Types (dice hand : list Z).

Lemma lowerRulesConsistent_hands : forallb lowerRulesConsistent (hands 5) = true.
Proof. vm_compute. reflexivity. Qed.

(** On a valid hand the lower-section cases agree with one another: five of
    a kind scores as four of a kind and is no full house; four of a kind
    scores as three of a kind; a full house scores as three of a kind and not
    as four; a large straight is a small straight; and a small straight
    holds neither three of a kind nor a full house. *)
Theorem lower_rules_consistent hand :
  validHand hand →
  let three := calculateLocalScore hand "threeofkind" in
  let four := calculateLocalScore hand "fourofkind" in
  let full := calculateLocalScore hand "fullhouse" in
  let small := calculateLocalScore hand "smallstraight" in
  let large := calculateLocalScore hand "largestraight" in
  let yahtzee := calculateLocalScore hand "yahtzee" in
  let chance := calculateLocalScore hand "chance" in
  (yahtzee = 50 → four = chance ∧ full = 0) ∧
  (four ≠ 0 → three = four ∧ four = chance) ∧
  (full = 25 → three = chance ∧ four = 0) ∧
  (large = 40 → small = 30) ∧
  (small = 30 → three = 0 ∧ full = 0).
Proof.
  intros [Hlen Hfaces].
  pose proof (elem_of_hands hand Hfaces) as Hin. rewrite Hlen in Hin.
  pose proof lowerRulesConsistent_hands as Hall.
  rewrite forallb_forall in Hall.
  specialize (Hall hand (proj1 (list_elem_of_In _ _) Hin)).
  unfold lowerRulesConsistent in Hall. cbv zeta in *.
  repeat (apply andb_prop in Hall as [Hall ?%bool_decide_eq_true]).
  apply bool_decide_eq_true in Hall. done.
Qed.

Lemma lower_rules_consistent_witness :
  let hand := [4; 4; 4; 4; 4] in
  let three := calculateLocalScore hand "threeofkind" in
  let four := calculateLocalScore hand "fourofkind" in
  let full := calculateLocalScore hand "fullhouse" in
  let small := calculateLocalScore hand "smallstraight" in
  let large := calculateLocalScore hand "largestraight" in
  let yahtzee := calculateLocalScore hand "yahtzee" in
  let chance := calculateLocalScore hand "chance" in
  (yahtzee = 50 → four = chance ∧ full = 0) ∧
  (four ≠ 0 → three = four ∧ four = chance) ∧
  (full = 25 → three = chance ∧ four = 0) ∧
  (large = 40 → small = 30) ∧
  (small = 30 → three = 0 ∧ full = 0).
Proof.
  apply (lower_rules_consistent [4; 4; 4; 4; 4]).
  split; [reflexivity|]. repeat constructor; lia.
Defined.

Lemma set_sum (acc : Js.NumObject) (k : Z) :
  foldr Z.add 0 (Js.set acc k (Js.or_zero (Js.get acc k) + 1)).*2
  = foldr Z.add 0 acc.*2 + 1.
Proof.
  induction acc as [|[k0 w] acc IH]; [done|].
  cbn [Js.set Js.get]. destruct (Z.eqb_spec k0 k) as [->|Hne].
  - rewrite or_zero_default. cbn. lia.
  - rewrite fmap_cons. cbn [foldr snd]. rewrite IH. rewrite fmap_cons. cbn. lia.
Qed.

(** The object of counts built by the first [reduce] has one property for
    each value that occurs among the dice, holding the number of its
    occurrences; a value that does not occur has no property, and the counts
    add up to the number of dice. *)
Theorem countDice_counts dice :
  (∀ v, Js.get (countDice dice) v =
        if decide (v ∈ dice) then Some (occurrences v dice) else None) ∧
  NoDup (countDice dice).*1 ∧
  foldr Z.add 0 (Js.values (countDice dice)) = Z.of_nat (length dice).
Proof.
  split_and!; [apply get_countDice|apply countDice_NoDup|].
  assert (∀ l l' : list Z, l ≡ₚ l' → foldr Z.add 0 l = foldr Z.add 0 l')
    as Hperm by (induction 1; cbn [foldr]; lia).
  rewrite (Hperm _ _ (values_perm _)). unfold countDice.
  enough (∀ acc : Js.NumObject,
    foldr Z.add 0
      (fold_left
         (λ acc die, Js.set acc die (Js.or_zero (Js.get acc die) + 1))
         dice acc).*2
    = foldr Z.add 0 acc.*2 + Z.of_nat (length dice)) as H by apply H.
  induction dice as [|d dice IH]; intros acc; cbn [fold_left length].
  - lia.
  - rewrite IH, set_sum. lia.
Qed.

End Relations.

(** ** Fetched scores in the output *)

Section Fetched.

Implicit Types (st : HookState) (fetched : gmap string Z).

Lemma scoreFor_with_fetched (c n : string) fetched st :
  possibleScores st = Some fetched →
  (c, n) ∈ categories →
  c ≠ "fouroOkind" →
  scoreFor st c =
    default (calculateLocalScore (dice (gameState st)) c) (fetched !! c).
Proof.
  intros Hfetched Hin Hne. rewrite scoreFor_fetched. unfold fetchedScore.
  rewrite Hfetched. cbn [mbind option_bind]. unfold categories in Hin.
  repeat (apply elem_of_cons in Hin as [[= -> ->]|Hin];
          [first [done | reflexivity]|]).
  by apply elem_of_nil in Hin.
Qed.



End Fetched.

(** ** From the fetch to the output *)

Section FetchAndShow.

Implicit Types (st : HookState) (result : gmap string Z).

(** What [fetchPossibleScores] receives is what [getPossibleScores] shows:
    with a game, once the server has answered, the entry of a category other
    than four of a kind carries the score the answer holds for it, and the
    game itself is untouched. *)
Theorem fetched_scores_are_shown (c n : string) (v : Z) result st :
  hasGame st →
  (c, n) ∈ categories →
  c ≠ "fouroOkind" →
  result !! c = Some v →
  let st' := (fetchPossibleScores (Fulfilled result) st).1 in
  gameState st' = gameState st ∧
  currentGameId st' = currentGameId st ∧
  entryFor c (getPossibleScores st') =
    Some {| category := c; name := n; score := v;
            isAvailable :=
              Js.is_null (scoreSheet_get (scoreSheet (gameState st)) c) |}.
Proof.
  intros (id & Hid & Hne) Hin Hother Hresult st'. subst st'.
  rewrite (fetchPossibleScores_sent _ st id) by done.
  cbn [fst snd handleApiCall].
  split_and!; [done|done|].
  rewrite (entryFor_categories _ c n Hin). unfold scoreOption. do 2 f_equal.
  rewrite (scoreFor_with_fetched c n result) by done.
  by rewrite Hresult.
Qed.

Lemma fetched_scores_are_shown_witness :
  let result : gmap string Z := {[ "fullHouse" := 25; "chance" := 18 ]} in
  let st' := (fetchPossibleScores (Fulfilled result) midTurn).1 in
  gameState st' = gameState midTurn ∧
  currentGameId st' = currentGameId midTurn ∧
  entryFor "fullHouse" (getPossibleScores st') =
    Some {| category := "fullHouse"; name := "Full House"; score := 25;
            isAvailable :=
              Js.is_null
                (scoreSheet_get (scoreSheet (gameState midTurn)) "fullHouse") |}.
Proof.
  apply (fetched_scores_are_shown "fullHouse" "Full House" 25 _ midTurn).
  - exists 12. split; [reflexivity|lia].
  - unfold categories. elem_of_literal.
  - discriminate.
  - reflexivity.
Defined.

End FetchAndShow.

(** ** Calls that overlap, closures of any age *)

Section Overlapping.

Implicit Types (h : Hook) (st closure : HookState) (request : Request)
  (reply : Settled Answer).

(** A call that is not interrupted is the operation taken in one piece. *)
Lemma toggleDie_toggleDieIn (index : Z) st :
  toggleDie index st = toggleDieIn st index st.
Proof. reflexivity. Qed.

Lemma newGame_uninterrupted (playerName : string)
    (game : Settled Backend.GameState) st :
  newGame playerName game st =
    (settled (CreateNewGame playerName) (gameReply game) (beginApiCall st),
     [CreateNewGame playerName]).
Proof. by destruct game. Qed.

Lemma rollDice_uninterrupted (game : Settled Backend.GameState) st :
  rollDice game st =
    match requestOf CallRollDice st with
    | Some request =>
        (settled request (gameReply game) (beginApiCall st), [request])
    | None => (st, [])
    end.
Proof.
  unfold rollDice, requestOf. destruct (currentGameId st) as [id|]; [|done].
  destruct (_ || _); [done|]. by destruct game.
Qed.

Lemma scoreCategory_uninterrupted (c : string)
    (game : Settled Backend.GameState) st :
  scoreCategory c game st =
    match requestOf (CallScoreCategory c) st with
    | Some request =>
        (settled request (gameReply game) (beginApiCall st), [request])
    | None => (st, [])
    end.
Proof.
  unfold scoreCategory, requestOf. destruct (currentGameId st) as [id|]; [|done].
  destruct (_ || _); [done|]. by destruct game.
Qed.

Lemma fetchPossibleScores_uninterrupted (scores : Settled (gmap string Z)) st :
  fetchPossibleScores scores st =
    match requestOf CallFetchPossibleScores st with
    | Some request =>
        (settled request (scoresReply scores) (beginApiCall st), [request])
    | None => (st, [])
    end.
Proof.
  unfold fetchPossibleScores, requestOf.
  destruct (currentGameId st) as [id|]; [|done].
  destruct (_ =? _); [done|]. by destruct scores.
Qed.

Lemma fetchEffect_uninterrupted (scores : Settled (gmap string Z)) st :
  fetchEffect scores st =
    match requestOf CallFetchEffect st with
    | Some request =>
        (settled request (scoresReply scores) (beginApiCall st), [request])
    | None => (st, [])
    end.
Proof.
  unfold fetchEffect, fetchPossibleScores, requestOf.
  destruct (currentGameId st) as [id|]; [|done].
  destruct (Z.eqb_spec id 0); cbn [negb andb]; [done|].
  destruct (_ <? 3); [|done]. by destruct scores.
Qed.

Lemma answerFits_game (call : Call) closure request
    (game : Settled Backend.GameState) :
  requestOf call closure = Some request →
  (∀ id, request ≠ GetPossibleScores id) →
  answerFits request (gameReply game).
Proof.
  intros _ Hne. destruct game; [|done]. destruct request; try done.
  by destruct (Hne gameId).
Qed.

Lemma settled_applied request reply st :
  settled request reply st ∈ applied (settlement request reply) st.
Proof.
  destruct reply as [[b|result]|err], request; cbn; elem_of_literal.
Qed.

(** Without a game only [newGame] gets through its guard. *)
Lemma requestOf_no_game (call : Call) closure request :
  currentGameId closure = None →
  requestOf call closure = Some request →
  ∃ playerName, request = CreateNewGame playerName.
Proof.
  intros Hnone. destruct call; cbn; rewrite ?Hnone; try done.
  intros [= <-]. by eexists.
Qed.

Lemma toggleDieIn_selectedDice closure (index : Z) st :
  NoDup (selectedDice (gameState st)) →
  NoDup (selectedDice (gameState (toggleDieIn closure index st))).
Proof.
  intros Hnd. unfold toggleDieIn. destruct (_ =? 3); [done|].
  cbn [gameState setGameState selectedDice withSelectedDice].
  destruct (existsb _ _) eqn:Hex; [by apply filter_ne_NoDup|].
  apply NoDup_app. split_and!; [done| |apply NoDup_singleton].
  intros x Hx%list_elem_of_In ->%list_elem_of_singleton.
  apply not_true_iff_false in Hex. apply Hex, existsb_exists.
  exists index. split; [done|apply Z.eqb_refl].
Qed.

Lemma toggleDieIn_rest closure (index : Z) st :
  currentGameId (toggleDieIn closure index st) = currentGameId st ∧
  possibleScores (toggleDieIn closure index st) = possibleScores st ∧
  rollsLeft (gameState (toggleDieIn closure index st)) = rollsLeft (gameState st).
Proof. unfold toggleDieIn. by destruct (_ =? 3). Qed.

Lemma hookStep_invariant (staleToggle : bool) h h' :
  hookStep staleToggle h h' → hookInvariant h → hookInvariant h'.
Proof.
  intros Hstep (Hnow & Hrenders & Hnone).
  pose proof (proj1 (Forall_forall _ _) Hrenders _ Hnow) as [Hnd Hinit].
  destruct Hstep as [call closure request h Hclosure Hrequest
                    |index closure h Hclosure _
                    |request reply before after h Hpending Hfits];
    unfold hookInvariant; cbn [now renders pending] in *.
  - (* a call starts *)
    split_and!.
    + apply list_elem_of_here.
    + apply Forall_cons. split; [|done]. by split.
    + intros Hid. destruct (Hnone Hid) as [Hall Hpend]. split.
      * apply Forall_cons. by split.
      * apply Forall_cons. split; [|done].
        apply (requestOf_no_game call closure); [|done].
        by apply (proj1 (Forall_forall _ _) Hall).
  - (* toggleDie *)
    destruct (toggleDieIn_rest closure index (now h)) as (Hid & Hps & _).
    assert (currentGameId (now h) = None →
            toggleDieIn closure index (now h) = now h) as Hblocked.
    { intros Hnoid. destruct (Hnone Hnoid) as [Hall _].
      pose proof (proj1 (Forall_forall _ _) Hall _ Hclosure) as Hcid.
      pose proof (proj1 (Forall_forall _ _) Hrenders _ Hclosure) as [_ Hc].
      unfold toggleDieIn. by rewrite (proj1 (Hc Hcid)). }
    split_and!.
    + apply list_elem_of_here.
    + apply Forall_cons. split; [|done]. split.
      * by apply toggleDieIn_selectedDice.
      * rewrite Hid. intros Hnoid. rewrite (Hblocked Hnoid). by apply Hinit.
    + rewrite Hid. intros Hnoid. destruct (Hnone Hnoid) as [Hall Hpend].
      split; [|done]. apply Forall_cons. split; [|done]. by rewrite Hid.
  - (* a reply arrives *)
    assert (request ∈ pending h) as Hin
      by (rewrite Hpending, elem_of_app, elem_of_cons; auto).
    assert ((∀ playerName, request ≠ CreateNewGame playerName) →
            currentGameId (now h) ≠ None) as Hgame.
    { intros Hother Hnoid. destruct (Hnone Hnoid) as [_ Hpend].
      destruct (proj1 (Forall_forall _ _) Hpend _ Hin) as [name ->].
      by apply (Hother name). }
    assert (Forall (λ request, ∃ playerName, request = CreateNewGame playerName)
              (pending h) →
            Forall (λ request, ∃ playerName, request = CreateNewGame playerName)
              (before ++ after)) as Hrest.
    { rewrite Hpending, !Forall_app, Forall_cons. tauto. }
    split_and!.
    + apply elem_of_app. left. apply settled_applied.
    + apply Forall_app. split; [|done].
      destruct reply as [[b|result]|err], request; try done;
        cbn [settlement applied];
        repeat (apply Forall_cons; split; [|]); try apply Forall_nil_2;
        (split; cbn; [first [done | apply NoDup_nil_2]|]);
        first [done | (intros Hnoid; exfalso; revert Hnoid; by apply Hgame)].
    + destruct reply as [[b|result]|err], request; try done;
        cbn [settled settlement foldl]; cbn;
        first [done | (intros Hnoid; exfalso; revert Hnoid; by apply Hgame)
              | (intros Hnoid; destruct (Hnone Hnoid) as [Hall Hpend];
                 split; [|by apply Hrest];
                 repeat (apply Forall_cons; split; [done|]); done)].
Qed.

Lemma overlapping_invariant h : overlapping h → hookInvariant h.
Proof.
  unfold overlapping. revert h. apply rtc_ind_r.
  - split_and!.
    + apply list_elem_of_here.
    + apply Forall_singleton. split; [apply NoDup_nil_2|done].
    + intros _. split; [by apply Forall_singleton|apply Forall_nil_2].
  - intros h h' _ Hstep IH. by apply (hookStep_invariant true h h').
Qed.

Lemma overlapping_started (staleToggle : bool) :
  rtc (hookStep staleToggle) initialHook startedHook.
Proof.
  eapply rtc_l.
  { apply (hook_call _ (CallNewGame "Player") initialState);
      [apply list_elem_of_here|reflexivity]. }
  eapply rtc_l.
  { apply (hook_reply _ (CreateNewGame "Player")
             (Fulfilled (GameAnswer created)) [] []); [reflexivity|exact I]. }
  apply rtc_refl.
Qed.

(** Until the server has created a game, nothing of the game changes, even
    with calls that overlap and closures of any age: the state keeps the
    dice, the rolls and the empty score sheet it started with, no die is
    selected, no scores are held, and the only requests that can be pending
    are those of [newGame]. Fetched scores are therefore held only once a
    game has been created. *)
Theorem reachable_before_first_game h :
  overlapping h →
  (currentGameId (now h) = None →
   gameState (now h) = initialGameState ∧
   possibleScores (now h) = None ∧
   Forall (λ request, ∃ playerName, request = CreateNewGame playerName)
     (pending h)) ∧
  (possibleScores (now h) ≠ None → currentGameId (now h) ≠ None).
Proof.
  intros (Hnow & Hrenders & Hnone)%overlapping_invariant.
  pose proof (proj1 (Forall_forall _ _) Hrenders _ Hnow) as [_ Hinit].
  split.
  - intros Hid. destruct (Hinit Hid) as [? ?]. destruct (Hnone Hid) as [_ ?].
    done.
  - intros Hscores Hid. by destruct (Hinit Hid).
Qed.

Lemma reachable_before_first_game_witness :
  let h := {| now := beginApiCall initialState;
              renders := [beginApiCall initialState; initialState];
              pending := [CreateNewGame "Player"] |} in
  (currentGameId (now h) = None →
   gameState (now h) = initialGameState ∧
   possibleScores (now h) = None ∧
   Forall (λ request, ∃ playerName, request = CreateNewGame playerName)
     (pending h)) ∧
  (possibleScores (now h) ≠ None → currentGameId (now h) ≠ None).
Proof.
  cbv zeta. apply reachable_before_first_game. unfold overlapping.
  eapply rtc_l; [|apply rtc_refl].
  apply (hook_call _ (CallNewGame "Player") initialState);
    [apply list_elem_of_here|reflexivity].
Defined.

(** With calls that overlap the scores can outlive the game they were
    fetched for: a fetch that is answered after a second [newGame] was
    answered with game 0 leaves scores in a state where [!currentGameId]
    holds. *)
Lemma fetched_scores_without_game :
  ∃ h, overlapping h ∧
       currentGameId (now h) = Some 0 ∧
       possibleScores (now h) = Some {[ "chance" := 5 ]}.
Proof.
  set (zero :=
    {| Backend.gameId := 0; Backend.dice := [1; 1; 1; 1; 1];
       Backend.rollsLeft := 3; Backend.currentRound := 1;
       Backend.scoreSheet := emptySheet;
       Backend.gameComplete := false; Backend.totalScore := 0 |}).
  eexists. split.
  - unfold overlapping. etrans; [apply (overlapping_started true)|].
    eapply rtc_l.
    { apply (hook_call _ CallFetchPossibleScores started);
        [cbn; elem_of_literal|reflexivity]. }
    eapply rtc_l.
    { apply (hook_call _ (CallNewGame "Player") started);
        [cbn; elem_of_literal|reflexivity]. }
    eapply rtc_l.
    { apply (hook_reply _ (CreateNewGame "Player")
               (Fulfilled (GameAnswer zero)) [] [GetPossibleScores 12]);
        [reflexivity|exact I]. }
    eapply rtc_l.
    { apply (hook_reply _ (GetPossibleScores 12)
               (Fulfilled (ScoresAnswer {[ "chance" := 5 ]})) [] []);
        [reflexivity|exact I]. }
    apply rtc_refl.
  - split; reflexivity.
Qed.



Lemma hookStep_firstRoll h h' :
  hookStep false h h' → firstRollInvariant h → firstRollInvariant h'.
Proof.
  intros Hstep [Hnow Hrenders].
  pose proof (proj1 (Forall_forall _ _) Hrenders _ Hnow) as Hfirst.
  destruct Hstep as [call closure request h Hclosure Hrequest
                    |index closure h Hclosure Hcurrent
                    |request reply before after h Hpending Hfits];
    unfold firstRollInvariant; cbn [now renders pending] in *.
  - split; [apply list_elem_of_here|]. by apply Forall_cons.
  - split; [apply list_elem_of_here|]. apply Forall_cons. split; [|done].
    rewrite (Hcurrent eq_refl). unfold toggleDieIn.
    destruct (Z.eqb_spec (rollsLeft (gameState (now h))) 3); [done|].
    cbn. done.
  - split; [apply elem_of_app; left; apply settled_applied|].
    apply Forall_app. split; [|done].
    destruct reply as [[b|result]|err], request; try done;
      cbn [settlement applied];
      repeat (apply Forall_cons; split; [|]); try apply Forall_nil_2;
      cbn; done.
Qed.

Lemma currentToggle_firstRoll h :
  overlappingCurrentToggle h → firstRollInvariant h.
Proof.
  unfold overlappingCurrentToggle. revert h. apply rtc_ind_r.
  - split; [apply list_elem_of_here|by apply Forall_singleton].
  - intros h h' _ Hstep IH. by apply (hookStep_firstRoll h h').
Qed.

(** When [toggleDie] is always the one of the current state, no die is
    selected while three rolls are left, even with requests that overlap:
    [toggleDie] is blocked and every answer of the server clears the
    selection. A [rollDice] of a render that shows three rolls left then
    sends an empty selection. *)
Theorem reachable_first_roll_selects_nothing h closure :
  overlappingCurrentToggle h →
  closure ∈ renders h →
  rollsLeft (gameState closure) = 3 →
  selectedDice (gameState closure) = [] ∧
  ∀ id sel, requestOf CallRollDice closure = Some (RollDice id sel) → sel = [].
Proof.
  intros [_ Hrenders]%currentToggle_firstRoll Hclosure Hthree.
  assert (selectedDice (gameState closure) = []) as Hempty
    by (by apply (proj1 (Forall_forall _ _) Hrenders _ Hclosure)).
  split; [done|]. intros id sel. cbn.
  destruct (currentGameId closure); [|done].
  destruct (_ || _); [done|]. intros [= _ <-]. done.
Qed.

Lemma reachable_first_roll_selects_nothing_witness :
  selectedDice (gameState started) = [] ∧
  ∀ id sel, requestOf CallRollDice started = Some (RollDice id sel) → sel = [].
Proof.
  apply (reachable_first_roll_selects_nothing startedHook started).
  - apply (overlapping_started false).
  - cbn. elem_of_literal.
  - reflexivity.
Defined.

(** With a [toggleDie] of an earlier render it is otherwise: created while
    two rolls were left and called after the next turn has begun, it selects
    a die while three rolls are left. *)
Lemma stale_toggleDie_selects_before_first_roll :
  ∃ h, overlapping h ∧
       rollsLeft (gameState (now h)) = 3 ∧
       selectedDice (gameState (now h)) = [2].
Proof.
  set (first :=
    {| Backend.gameId := 12; Backend.dice := [2; 5; 5; 1; 6];
       Backend.rollsLeft := 2; Backend.currentRound := 1;
       Backend.scoreSheet := emptySheet;
       Backend.gameComplete := false; Backend.totalScore := 0 |}).
  set (rolledOnce :=
    settled (RollDice 12 []) (Fulfilled (GameAnswer first)) (beginApiCall started)).
  eexists. split.
  - unfold overlapping. etrans; [apply (overlapping_started true)|].
    eapply rtc_l.
    { apply (hook_call _ CallRollDice started);
        [cbn; elem_of_literal|reflexivity]. }
    eapply rtc_l.
    { apply (hook_reply _ (RollDice 12 []) (Fulfilled (GameAnswer first)) [] []);
        [reflexivity|exact I]. }
    eapply rtc_l.
    { apply (hook_call _ (CallScoreCategory "chance") rolledOnce);
        [cbn; elem_of_literal|reflexivity]. }
    eapply rtc_l.
    { apply (hook_reply _ (SelectScore 12 (Some "chance"))
               (Fulfilled (GameAnswer created)) [] []); [reflexivity|exact I]. }
    eapply rtc_l.
    { apply (hook_toggleDie _ 2 rolledOnce); [cbn; elem_of_literal|done]. }
    apply rtc_refl.
  - split; reflexivity.
Qed.

(** Operations that run one after the other are a special case of calls
    that overlap: the call, then at once its reply, with the closure of the
    current state. *)
Lemma uninterrupted_call (call : Call) request reply st h :
  now h = st →
  now h ∈ renders h →
  requestOf call st = Some request →
  answerFits request reply →
  ∃ h', rtc (hookStep false) h h' ∧
        now h' = (settled request reply (beginApiCall st), [request]).1 ∧
        now h' ∈ renders h'.
Proof.
  intros <- Hnow Hrequest Hfits. eexists. split_and!.
  - eapply rtc_l; [by apply (hook_call _ call (now h))|].
    eapply rtc_l; [by apply (hook_reply _ request reply [] (pending h))|].
    apply rtc_refl.
  - reflexivity.
  - cbn [now renders]. apply elem_of_app. left. apply settled_applied.
Qed.

Lemma step_hookSteps st st' h :
  step st st' → now h = st → now h ∈ renders h →
  ∃ h', rtc (hookStep false) h h' ∧ now h' = st' ∧ now h' ∈ renders h'.
Proof.
  intros Hstep Hst Hnow.
  assert (∃ h', rtc (hookStep false) h h' ∧ now h' = (st, @nil Request).1
                ∧ now h' ∈ renders h') as Hstay
    by (exists h; split_and!; [apply rtc_refl|done|done]).
  destruct Hstep as [playerName game st|game st|index st
                    |c game st|scores st|scores st].
  - rewrite newGame_uninterrupted.
    by apply (uninterrupted_call (CallNewGame playerName)); [..|destruct game].
  - rewrite rollDice_uninterrupted.
    destruct (requestOf CallRollDice st) as [request|] eqn:Hrequest; [|done].
    apply (uninterrupted_call CallRollDice); [done..|].
    apply (answerFits_game _ _ _ _ Hrequest). intros id ->. cbn in Hrequest.
    destruct (currentGameId st); [|done]. by destruct (_ || _).
  - exists {| now := toggleDieIn (now h) index (now h);
              renders := toggleDieIn (now h) index (now h) :: renders h;
              pending := pending h |}.
    split_and!; [|by rewrite Hst|apply list_elem_of_here].
    eapply rtc_l; [by apply (hook_toggleDie _ index (now h))|apply rtc_refl].
  - rewrite scoreCategory_uninterrupted.
    destruct (requestOf (CallScoreCategory c) st) as [request|] eqn:Hrequest;
      [|done].
    apply (uninterrupted_call (CallScoreCategory c)); [done..|].
    apply (answerFits_game _ _ _ _ Hrequest). intros id ->. cbn in Hrequest.
    destruct (currentGameId st); [|done]. by destruct (_ || _).
  - rewrite fetchPossibleScores_uninterrupted.
    destruct (requestOf CallFetchPossibleScores st) as [request|]
      eqn:Hrequest; [|done].
    apply (uninterrupted_call CallFetchPossibleScores); [done..|].
    cbn in Hrequest. destruct (currentGameId st); [|done].
    destruct (_ =? _); [done|]. injection Hrequest as <-. by destruct scores.
  - rewrite fetchEffect_uninterrupted.
    destruct (requestOf CallFetchEffect st) as [request|] eqn:Hrequest;
      [|done].
    apply (uninterrupted_call CallFetchEffect); [done..|].
    cbn in Hrequest. destruct (currentGameId st); [|done].
    destruct (_ && _); [|done]. injection Hrequest as <-. by destruct scores.
Qed.

Lemma reachable_overlapping st :
  reachable st → ∃ h, overlappingCurrentToggle h ∧ now h = st.
Proof.
  unfold reachable, overlappingCurrentToggle. intros Hreach.
  enough (∃ h, rtc (hookStep false) initialHook h ∧ now h = st
               ∧ now h ∈ renders h) as (h & ? & ? & _) by eauto.
  revert st Hreach. apply rtc_ind_r.
  - exists initialHook. split_and!; [apply rtc_refl|done|apply list_elem_of_here].
  - intros st st' _ Hstep (h & Hrun & Hst & Hnow).
    destruct (step_hookSteps st st' h Hstep Hst Hnow) as (h' & Hrun' & ? & ?).
    exists h'. split_and!; [by etrans|done|done].
Qed.

(** [handleApiCall] clears the error when a request starts, not when its
    reply arrives: a fulfilled reply sets [loading] to [false] and leaves the
    error as it is. After a request is fulfilled the error is therefore null
    if nothing arrived in between, and the message of another request's
    rejection if one did; and [loading] is [false] although that other
    request may still be pending. *)
Theorem error_cleared_when_request_starts (request other : Request)
    (answer : Answer) (err : Thrown) st :
  error (beginApiCall st) = None ∧
  loading (beginApiCall st) = true ∧
  sameGame st (beginApiCall st) ∧
  error (settled request (Fulfilled answer) st) = error st ∧
  loading (settled request (Fulfilled answer) st) = false ∧
  error (settled request (Fulfilled answer) (beginApiCall st)) = None ∧
  error (settled request (Fulfilled answer)
           (settled other (Rejected err) (beginApiCall (beginApiCall st))))
    = Some (errorMessage err).
Proof.
  split_and!; try done; by destruct request, answer.
Qed.

End Overlapping.
